(** * LLMLingua-service: the compressor pool and the request parameters

    A shallow embedding of [service/compressor_pool.py] (class
    [CompressorPool]) and [service/models.py] ([build_compression_params]).

    - Python [int]s are [Z]; a Python [list] is a [list] in the same order
      ([append] adds at the end, [pop()] takes the last element); the
      [set] [in_use] is a [gset Z]; the [dict]s are [gmap string pyval].
    - An exception is a value of [exn] returned next to the state the
      method has reached when it is raised.
    - [lingua.PromptCompressor] is an external constructor; it is a
      parameter of the development, a function of its three arguments and
      of an external state (so that one call can fail and the next succeed).
    - Every [with self.lock:] block is one atomic function on the pool.
      Time is a virtual clock: critical sections take no time,
      [time.sleep] advances the clock, and whatever the other threads do
      happens while this thread sleeps.
    - The rebuild at the end of [update_model] runs without the lock: there
      the other threads can change the two index collections between any
      two statements.
    - The two polling loops take a [fuel] argument that bounds the number
      of times their body is entered; [None] means that the loop has not
      finished within that bound. *)

From Stdlib Require Import ZArith QArith Qround Lqa Lia.
From stdpp Require Import gmap strings list fin_sets.

Local Open Scope Z_scope.
#[local] Set Warnings "-clear-no-such-hyp".

(** ** Python preliminaries *)

Module Py.

(** The exceptions that the modelled methods can raise. *)
Inductive exn : Type :=
| PoolExhausted       (* Exception("Connection pool exhausted, ...") *)
| IndexError          (* list index out of range *)
| ConstructionError.  (* whatever PromptCompressor(...) raised *)

Inductive outcome (A : Type) : Type :=
| Ok (a : A)
| Raise (e : exn).
Arguments Ok {A} a.
Arguments Raise {A} e.

(** [l.pop()] on a non-empty list: the last element and the rest. *)
Fixpoint pop {A} (l : list A) : option (A * list A) :=
  match l with
  | [] => None
  | x :: l' =>
      match pop l' with
      | None => Some (x, [])
      | Some (y, r) => Some (y, x :: r)
      end
  end.

(** [l[i]] with Python's negative indices; [None] is IndexError. *)
Definition index {A} (l : list A) (i : Z) : option A :=
  let n := Z.of_nat (length l) in
  if 0 <=? i then l !! Z.to_nat i
  else if - n <=? i then l !! Z.to_nat (n + i)
  else None.

(** A Python float, as far as comparisons see it: every finite binary64
    value is a rational number (-0.0 and 0.0 both compare as 0). *)
Inductive pyfloat : Type :=
| Finite (q : Q)
| PosInf
| NegInf
| NaN.

(** [0 < x] and [x <= 1] on floats; every comparison with NaN is False. *)
Definition float_pos (x : pyfloat) : bool :=
  match x with
  | Finite q => if Qlt_le_dec 0 q then true else false
  | PosInf => true
  | NegInf | NaN => false
  end.

Definition float_le_one (x : pyfloat) : bool :=
  match x with
  | Finite q => if Qlt_le_dec 1 q then false else true
  | NegInf => true
  | PosInf | NaN => false
  end.

(** The values stored in the dictionaries of this program. *)
Inductive pyval : Type :=
| VInt (z : Z)
| VFloat (x : pyfloat)
| VStr (s : string).

End Py.
Import Py.

(** ** service/compressor_pool.py *)

Section Definitions.

Context {Worker Ext : Type}.

(** [PromptCompressor(model_name=.., device_map=.., use_llmlingua2=..)]:
    [None] when the constructor raises. *)
Variable PromptCompressor : string → string → bool → Ext → option Worker * Ext.

(** The attributes of a [CompressorPool] object ([self.lock] is what makes
    the functions below atomic). *)
Record CompressorPool : Type := mkPool {
  pool_size : Z;
  model_name : string;
  device_map : string;
  use_llmlingua2 : bool;
  pool : list Worker;
  available : list Z;
  in_use : gset Z
}.

Definition set_config (m d : string) (p : CompressorPool) : CompressorPool :=
  mkPool (pool_size p) m d (use_llmlingua2 p) (pool p) (available p) (in_use p).

Definition set_slots (ws : list Worker) (av : list Z) (iu : gset Z)
    (p : CompressorPool) : CompressorPool :=
  mkPool (pool_size p) (model_name p) (device_map p) (use_llmlingua2 p) ws av iu.

(** The body of the [for i in range(self.pool_size)] loop, over the
    indices still to come. An exception leaves the loop at once, with
    whatever was appended so far still in the object. *)
Fixpoint initialize_loop (indices : list Z) (p : CompressorPool) (e : Ext)
    : outcome unit * CompressorPool * Ext :=
  match indices with
  | [] => (Ok tt, p, e)
  | i :: rest =>
      match PromptCompressor (model_name p) (device_map p) (use_llmlingua2 p) e with
      | (Some compressor, e') =>
          initialize_loop rest
            (set_slots (pool p ++ [compressor]) (available p ++ [i]) (in_use p) p) e'
      | (None, e') => (Raise ConstructionError, p, e')
      end
  end.

(** [_initialize_pool]: the [except] clause logs and re-raises. *)
Definition _initialize_pool (p : CompressorPool) (e : Ext)
    : outcome unit * CompressorPool * Ext :=
  initialize_loop (seqZ 0 (pool_size p)) p e.

(** [__init__]: when [_initialize_pool] raises, the constructor raises and
    the caller is given no object. *)
Definition __init__ (size : Z) (m d : string) (u : bool) (e : Ext)
    : outcome CompressorPool * Ext :=
  match _initialize_pool (mkPool size m d u [] [] ∅) e with
  | (Ok _, p, e') => (Ok p, e')
  | (Raise x, _, e') => (Raise x, e')
  end.

(** The critical section of [get_compressor] (lines 69-74). [None]: the
    list [available] is empty and the [with] block falls through. *)
Definition acquire_locked (p : CompressorPool)
    : option (outcome (Worker * Z) * CompressorPool) :=
  match pop (available p) with
  | None => None
  | Some (instance_id, rest) =>
      let p' := set_slots (pool p) rest ({[instance_id]} ∪ in_use p) p in
      match index (pool p') instance_id with
      | Some compressor => Some (Ok (compressor, instance_id), p')
      | None => Some (Raise IndexError, p')
      end
  end.

(** [release_compressor] *)
Definition release_compressor (instance_id : Z) (p : CompressorPool)
    : CompressorPool :=
  if decide (instance_id ∈ in_use p)
  then set_slots (pool p) (available p ++ [instance_id])
                 (in_use p ∖ {[instance_id]}) p
  else p.

(** [get_status]: the dictionary, and the object as it is left. *)
Definition get_status (p : CompressorPool) : gmap string pyval * CompressorPool :=
  (<["pool_size" := VInt (pool_size p)]>
   (<["available" := VInt (Z.of_nat (length (available p)))]>
   (<["in_use" := VInt (Z.of_nat (size (in_use p)))]>
   (<["model_name" := VStr (model_name p)]>
   (<["device_map" := VStr (device_map p)]> ∅)))), p).

(** [cleanup] *)
Definition cleanup (p : CompressorPool) : CompressorPool :=
  set_slots [] [] ∅ p.

(** *** The other threads, and the clock *)

(** A critical section run by some other thread: that of a
    [get_compressor] call, or a [release_compressor] call. *)
Inductive step : Type :=
| Take
| Give (instance_id : Z).

Definition run_step (p : CompressorPool) (s : step) : CompressorPool :=
  match s with
  | Take => match acquire_locked p with
            | Some (_, p') => p'
            | None => p
            end
  | Give i => release_compressor i p
  end.

Definition run_steps (p : CompressorPool) (tr : list step) : CompressorPool :=
  foldl run_step p tr.

(** What one thread of control sees: the shared pool, the clock, how many
    times it has slept, and the state of the world outside the program. *)
Record World : Type := mkWorld {
  w_pool : CompressorPool;
  now : Q;
  sleeps : nat;
  ext : Ext
}.

Definition with_pool (p : CompressorPool) (w : World) : World :=
  mkWorld p (now w) (sleeps w) (ext w).

(** [others n]: the critical sections the other threads run during the
    [n]-th sleep; [oversleep n]: how much longer than asked that sleep lasts. *)
Variable others : nat → list step.
Variable oversleep : nat → Q.

Definition poll_interval : Q := 1 # 10.

(** [time.sleep(d)] *)
Definition time_sleep (d : Q) (w : World) : World :=
  mkWorld (run_steps (w_pool w) (others (sleeps w)))
          (now w + d + oversleep (sleeps w))%Q
          (S (sleeps w))
          (ext w).

Fixpoint after_sleeps (k : nat) (w : World) : World :=
  match k with
  | O => w
  | S k' => after_sleeps k' (time_sleep poll_interval w)
  end.

(** The [while] loop of [get_compressor]; [fuel] bounds the number of times
    the body is entered, [None] means that it was not enough. *)
Fixpoint get_compressor_loop (fuel : nat) (timeout start_time : Q) (w : World)
    : option (outcome (Worker * Z) * World) :=
  if Qlt_le_dec (now w - start_time) timeout then
    match fuel with
    | O => None
    | S fuel' =>
        match acquire_locked (w_pool w) with
        | Some (r, p') => Some (r, with_pool p' w)
        | None =>
            get_compressor_loop fuel' timeout start_time (time_sleep poll_interval w)
        end
    end
  else Some (Raise PoolExhausted, w).

(** [get_compressor] *)
Definition get_compressor (fuel : nat) (timeout : Q) (w : World)
    : option (outcome (Worker * Z) * World) :=
  let start_time := now w in
  get_compressor_loop fuel timeout start_time w.

(** The [while True] loop of [update_model]. *)
Fixpoint drain_loop (fuel : nat) (w : World) : option World :=
  match fuel with
  | O => None
  | S fuel' =>
      if decide (in_use (w_pool w) = ∅) then Some w
      else drain_loop fuel' (time_sleep poll_interval w)
  end.

(** *** The unlocked part of [update_model] *)

(** The two index collections, [available] and [in_use]. *)
Definition slots : Type := list Z * gset Z.

(** Lines 118-121 of [update_model] run after the lock has been given
    back. The other threads, in [get_compressor] and [release_compressor],
    pop from and append to [available] and add to and remove from [in_use];
    as the rebuild does not hold the lock, its statements can fall between
    any two of these operations, also in the middle of a critical section.
    So between two statements of the rebuild the other threads may have
    changed the two index collections in any way: [f] is that change.
    They never assign [pool] or the configuration. *)
Definition disturb (f : slots → slots) (p : CompressorPool) : CompressorPool :=
  let '(av, iu) := f (available p, in_use p) in
  set_slots (pool p) av iu p.

(** The change that whole critical sections make, run one after the other. *)
Definition by_steps (tr : list step) (s : slots) : slots :=
  let p := run_steps (mkPool 0 "" "" false [] s.1 s.2) tr in
  (available p, in_use p).

(** The loop of [_initialize_pool] on a pool that other threads use
    meanwhile: [racing gap] is what they do while the constructor runs
    and, at the next gap, between the two [append]s. *)
Fixpoint initialize_loop_shared (racing : nat → slots → slots) (gap : nat)
    (indices : list Z) (p : CompressorPool) (e : Ext)
    : outcome unit * CompressorPool * Ext :=
  match indices with
  | [] => (Ok tt, p, e)
  | i :: rest =>
      let p := disturb (racing gap) p in
      match PromptCompressor (model_name p) (device_map p) (use_llmlingua2 p) e with
      | (Some compressor, e') =>
          let p := set_slots (pool p ++ [compressor]) (available p) (in_use p) p in
          let p := disturb (racing (S gap)) p in
          let p := set_slots (pool p) (available p ++ [i]) (in_use p) p in
          initialize_loop_shared racing (S (S gap)) rest p e'
      | (None, e') => (Raise ConstructionError, p, e')
      end
  end.

(** [update_model]. [racing 0], [racing 1] and [racing 2] are what the
    other threads do before [self.pool.clear()], [self.available.clear()]
    and [self.in_use.clear()]; the later gaps are those of the loop. *)
Definition update_model (fuel : nat) (racing : nat → slots → slots)
    (new_model_name new_device_map : option string)
    (w : World) : option (outcome unit * World) :=
  let p := w_pool w in
  let p := set_config (default (model_name p) new_model_name)
                      (default (device_map p) new_device_map) p in
  match drain_loop fuel (with_pool p w) with
  | None => None
  | Some w1 =>
      let p := disturb (racing 0%nat) (w_pool w1) in
      let p := set_slots [] (available p) (in_use p) p in
      let p := disturb (racing 1%nat) p in
      let p := set_slots (pool p) [] (in_use p) p in
      let p := disturb (racing 2%nat) p in
      let p := set_slots (pool p) (available p) ∅ p in
      let '(r, p', e') :=
        initialize_loop_shared racing 3 (seqZ 0 (pool_size p)) p (ext w1) in
      Some (r, mkWorld p' (now w1) (sleeps w1) e')
  end.

(** *** Calls *)

Inductive call : Type :=
| CallGet (timeout : Q)
| CallRelease (instance_id : Z)
| CallStatus
| CallUpdate (new_model_name new_device_map : option string)
             (racing : nat → slots → slots).

Inductive value : Type :=
| RetCompressor (compressor : Worker) (instance_id : Z)
| RetNone
| RetStatus (d : gmap string pyval).

Definition run_call (fuel : nat) (c : call) (w : World)
    : option (outcome value * World) :=
  match c with
  | CallGet timeout =>
      match get_compressor fuel timeout w with
      | Some (Ok (compressor, i), w') => Some (Ok (RetCompressor compressor i), w')
      | Some (Raise x, w') => Some (Raise x, w')
      | None => None
      end
  | CallRelease i => Some (Ok RetNone, with_pool (release_compressor i (w_pool w)) w)
  | CallStatus =>
      let '(d, p) := get_status (w_pool w) in Some (Ok (RetStatus d), with_pool p w)
  | CallUpdate m d racing =>
      match update_model fuel racing m d w with
      | Some (Ok _, w') => Some (Ok RetNone, w')
      | Some (Raise x, w') => Some (Raise x, w')
      | None => None
      end
  end.

End Definitions.

(** ** service/models.py *)

(** The fields of [CompressRequest] after validation by pydantic. *)
Record CompressRequest : Type := mkRequest {
  prompts : option (list string);
  rate : option pyfloat;
  target_token : option Z;
  target_context_level_rate : option pyfloat;
  context_level_rate : option pyfloat;
  context_level_target_token : option Z;
  chunk_end_tokens : option string;
  query : option string
}.

(** [if field is not None and <test on field>: params[key] = field] *)
Definition store_if {A} (field : option A) (test : A → bool) (key : string)
    (inj : A → pyval) (params : gmap string pyval) : gmap string pyval :=
  match field with
  | Some x => if test x then <[key := inj x]> params else params
  | None => params
  end.

Definition build_compression_params (request : CompressRequest) : gmap string pyval :=
  let params : gmap string pyval := ∅ in
  let params :=
    store_if (rate request) (λ x, float_pos x && float_le_one x) "rate" VFloat params in
  let params :=
    store_if (target_token request) (λ n, 0 <? n) "target_token" VInt params in
  let params :=
    store_if (target_context_level_rate request) float_pos
             "target_context_level_rate" VFloat params in
  let params :=
    store_if (context_level_rate request) (λ x, float_pos x && float_le_one x)
             "context_level_rate" VFloat params in
  let params :=
    store_if (context_level_target_token request) (λ n, 0 <? n)
             "context_level_target_token" VInt params in
  let params :=
    store_if (chunk_end_tokens request) (λ s, bool_decide (s ≠ ""))
             "chunk_end_tokens" VStr params in
  params.

(** ** Notions used to state the properties *)

(** The range checks, in the words of the specification. *)
Definition in_unit_interval (x : pyfloat) : Prop :=
  ∃ q, x = Finite q ∧ (0 < q)%Q ∧ (q <= 1)%Q.

Definition strictly_positive (x : pyfloat) : Prop :=
  x = PosInf ∨ ∃ q, x = Finite q ∧ (0 < q)%Q.

Section Notions.

Context {Worker Ext : Type}.
Variable PromptCompressor : string → string → bool → Ext → option Worker * Ext.
Variable others : nat → list step.
Variable oversleep : nat → Q.

Abbreviation CompressorPool := (@CompressorPool Worker).
Abbreviation World := (@World Worker Ext).

(** A worker that some call [PromptCompressor(m, d, u)] has returned. *)
Definition built_with (m d : string) (u : bool) (c : Worker) : Prop :=
  ∃ e, (PromptCompressor m d u e).1 = Some c.

(** What [n] calls [PromptCompressor(m, d, u)] in a row produce: the
    workers built before the first call that raises, whether all the
    calls returned, and the outside world afterwards. *)
Fixpoint construct (n : nat) (m d : string) (u : bool) (e : Ext)
    : list Worker * bool * Ext :=
  match n with
  | O => ([], true, e)
  | S n' =>
      match PromptCompressor m d u e with
      | (Some c, e') =>
          let '(ws, ok, e'') := construct n' m d u e' in (c :: ws, ok, e'')
      | (None, e') => ([], false, e')
      end
  end.

(** The tickets that are out: handed out by a successful critical section
    of [get_compressor] and not given to [release_compressor] since. *)
Definition holders_step (p : CompressorPool) (h : list Z) (s : step) : list Z :=
  match s with
  | Take => match acquire_locked p with
            | Some (Ok (_, i), _) => i :: h
            | _ => h
            end
  | Give i => filter (λ j, j ≠ i) h
  end.

Fixpoint holders (p : CompressorPool) (h : list Z) (tr : list step) : list Z :=
  match tr with
  | [] => h
  | s :: tr' => holders (run_step p s) (holders_step p h s) tr'
  end.

(** The critical sections that the other threads run during [k] sleeps
    in a row, the first of which is sleep number [n]. *)
Fixpoint during (n k : nat) : list step :=
  match k with
  | O => []
  | S k' => others n ++ during (S n) k'
  end.

(** The two index collections partition the slots of the worker list:
    no index twice, none lost, none in both. *)
Record consistent (p : CompressorPool) : Prop := mkConsistent {
  cons_nodup : NoDup (available p);
  cons_disjoint : ∀ i, i ∈ available p → i ∉ in_use p;
  cons_range : ∀ i, i ∈ available p ∨ i ∈ in_use p ↔
                    0 ≤ i < Z.of_nat (length (pool p));
  cons_count : (length (available p) + size (in_use p))%nat = length (pool p)
}.

(** The worker list has one worker per unit of capacity. *)
Definition full (p : CompressorPool) : Prop :=
  Z.of_nat (length (pool p)) = pool_size p.

(** The worlds that a sequence of completed calls leads to. A call that
    raises from the constructor of a worker does not count as completed. *)
Inductive reachable (allowed : call → Prop) (w0 : World) : World → Prop :=
| reach_here : reachable allowed w0 w0
| reach_call w fuel c r w' :
    reachable allowed w0 w →
    allowed c →
    run_call PromptCompressor others oversleep fuel c w = Some (r, w') →
    r ≠ Raise ConstructionError →
    reachable allowed w0 w'.

Definition not_update (c : call) : Prop :=
  match c with CallUpdate _ _ _ => False | _ => True end.

(** Every call, provided that no other thread touches the pool during
    the unlocked rebuild of an [update_model]. *)
Definition undisturbed (c : call) : Prop :=
  match c with
  | CallUpdate _ _ racing => ∀ gap s, racing gap s = s
  | _ => True
  end.

End Notions.

(** ** The whole life of a pool *)

Section Lifecycle.

Context {Worker Ext : Type}.
Variable PromptCompressor : string → string → bool → Ext → option Worker * Ext.
Variable others : nat → list step.
Variable oversleep : nat → Q.

(** The worlds that a sequence of method calls leads to: calls that
    return, calls that raise (also an [update_model] whose rebuild fails),
    and [cleanup]. *)
Inductive lifecycle (allowed : call → Prop) (w0 : @World Worker Ext)
    : @World Worker Ext → Prop :=
| life_here : lifecycle allowed w0 w0
| life_call w fuel c r w' :
    lifecycle allowed w0 w →
    allowed c →
    run_call PromptCompressor others oversleep fuel c w = Some (r, w') →
    lifecycle allowed w0 w'
| life_cleanup w :
    lifecycle allowed w0 w →
    lifecycle allowed w0 (with_pool (cleanup (w_pool w)) w).

End Lifecycle.

(** ** app.py *)

Section App.

Context {Worker Ext Obj Err : Type}.
Variable PromptCompressor : string → string → bool → Ext → option Worker * Ext.
Variable others : nat → list step.
Variable oversleep : nat → Q.

(** [compressor.compress_prompt(context=.., **params)], a method of the
    external worker: the dictionary it returns, or what it raises. *)
Variable worker_compress_prompt :
  Worker → option (list string) → gmap string pyval → Ext → (gmap string Obj + Err) * Ext.

(** What the [except Exception as e] clause of the handler can catch. *)
Inductive caught : Type :=
| CaughtHTTP (status_code : Z) (detail : string)
| CaughtPool (x : exn)
| CaughtKeyError (key : string)
| CaughtWorker (err : Err).

(** Python's [str(e)]. *)
Variable str : caught → string.

(** [os.path.isabs], [os.path.exists], and
    [os.path.abspath(os.path.join(os.path.dirname(__file__), p))]. *)
Variable isabs : string → bool.
Variable path_exists : string → bool.
Variable beside_app : string → string.

(** The global [compressor_pool] ([None] until start-up has built the
    pool), with the clock and the world outside. *)
Record App : Type := mkApp {
  compressor_pool : option (@CompressorPool Worker);
  clock : Q;
  naps : nat;
  outside : Ext
}.

Definition app_of (w : @World Worker Ext) : App :=
  mkApp (Some (w_pool w)) (now w) (sleeps w) (ext w).

(** The values that app.py reads from the configuration. *)
Record Config : Type := mkConfig {
  default_model_path : option string;
  default_device_map : string;
  config_pool_size : Z;
  config_use_llmlingua2 : bool
}.

Definition remote_model : string :=
  "microsoft/llmlingua-2-xlm-roberta-large-meetingbank".

(** [check_model_path]: [not model_path] holds for [None] and for the
    empty string. *)
Definition check_model_path (model_path : option string) : bool :=
  match model_path with
  | None => false
  | Some p =>
      if bool_decide (p = "") then false
      else path_exists (if isabs p then p else beside_app p)
  end.

(** [initialize_compressor_pool]: an exception of the constructor is
    logged and raised again, and the global keeps its value. *)
Definition initialize_compressor_pool (config : Config) (a : App) : outcome unit * App :=
  let model_to_use :=
    if check_model_path (default_model_path config)
    then beside_app (default "" (default_model_path config))
    else remote_model in
  match __init__ PromptCompressor (config_pool_size config) model_to_use
                 (default_device_map config) (config_use_llmlingua2 config)
                 (outside a) with
  | (Ok p, e') => (Ok tt, mkApp (Some p) (clock a) (naps a) e')
  | (Raise x, e') => (Raise x, mkApp (compressor_pool a) (clock a) (naps a) e')
  end.

(** The part of [lifespan] after the [yield]. *)
Definition shutdown (a : App) : App :=
  match compressor_pool a with
  | Some p => mkApp (Some (cleanup p)) (clock a) (naps a) (outside a)
  | None => a
  end.

Inductive response : Type :=
| Body (d : gmap string Obj)
| HTTPException (status_code : Z) (detail : string).

(** [raise HTTPException(status_code=500, detail=f"compress error: {str(e)}")] *)
Definition compress_error (e : caught) : response :=
  HTTPException 500 (String.append "compress error: " (str e)).

(** The four subscripts of [compressed_result], in the order of the
    source, and the dictionary that is returned. *)
Definition pick_results (compressed_result : gmap string Obj)
    : gmap string Obj + caught :=
  match compressed_result !! "compressed_prompt_list" with
  | None => inr (CaughtKeyError "compressed_prompt_list")
  | Some compressed_prompt =>
  match compressed_result !! "origin_tokens" with
  | None => inr (CaughtKeyError "origin_tokens")
  | Some origin_tokens =>
  match compressed_result !! "compressed_tokens" with
  | None => inr (CaughtKeyError "compressed_tokens")
  | Some compressed_tokens =>
  match compressed_result !! "rate" with
  | None => inr (CaughtKeyError "rate")
  | Some rate =>
      inl (<["prompts" := compressed_prompt]>
           (<["original_tokens" := origin_tokens]>
           (<["compressed_tokens" := compressed_tokens]>
           (<["rate" := rate]> ∅))))
  end end end end.

(** The handler of [POST /compress]. [get_compressor()] is called with
    its default timeout of 30 seconds; the [finally] clause runs whether
    the worker returns or raises. *)
Definition compress_prompt (fuel : nat) (request : CompressRequest) (a : App)
    : option (response * App) :=
  match compressor_pool a with
  | None =>
      Some (compress_error
              (CaughtHTTP 503 "Connection pool not initialized, please try again later"),
            a)
  | Some p =>
      let params := build_compression_params request in
      match get_compressor others oversleep fuel 30
                           (mkWorld p (clock a) (naps a) (outside a)) with
      | None => None
      | Some (Raise x, w) => Some (compress_error (CaughtPool x), app_of w)
      | Some (Ok (compressor, instance_id), w) =>
          let '(compressed_result, e') :=
            worker_compress_prompt compressor (prompts request) params (ext w) in
          let a' := mkApp (Some (release_compressor instance_id (w_pool w)))
                          (now w) (sleeps w) e' in
          match compressed_result with
          | inr err => Some (compress_error (CaughtWorker err), a')
          | inl d =>
              match pick_results d with
              | inl body => Some (Body body, a')
              | inr e => Some (compress_error e, a')
              end
          end
      end
  end.

(** The handler of [GET /health]: the status, the pool status ([None]
    while initializing), and the application as it is left. *)
Definition health_check (a : App) : string * option (gmap string pyval) * App :=
  match compressor_pool a with
  | None => ("initializing", None, a)
  | Some p =>
      let '(pool_status, p') := get_status p in
      ("healthy", Some pool_status,
       mkApp (Some p') (clock a) (naps a) (outside a))
  end.

End App.

(** ** A concrete constructor, for examples *)

Module Demo.

(** A worker that remembers the configuration it was built with. *)
Definition worker : Type := string * string * bool.

(** The outside world counts the calls of the constructor. [reliable]
    always returns; [flaky] returns once and raises from then on. *)
Definition reliable (m d : string) (u : bool) (calls : nat) : option worker * nat :=
  (Some (m, d, u), S calls).

Definition flaky (m d : string) (u : bool) (calls : nat) : option worker * nat :=
  (if (calls <? 1)%nat then Some (m, d, u) else None, S calls).

(** No other thread touches the pool; every sleep lasts what was asked. *)
Definition quiet : nat → list step := λ _, [].
Definition punctual : nat → Q := λ _, 0%Q.
Definition alone : nat → slots → slots := λ _ s, s.


(** Another thread gives ticket 0 back during the first sleep. *)
Definition returning : nat → list step :=
  λ n, if (n =? 0)%nat then [Give 0] else [].

(** Another thread takes a ticket before [self.pool.clear()] and gives
    ticket 1 back between [self.available.clear()] and
    [self.in_use.clear()]. *)
Definition meddling : nat → slots → slots :=
  λ gap, if (gap =? 0)%nat then by_steps (Worker := worker) [Take]
         else if (gap =? 2)%nat then by_steps (Worker := worker) [Give 1]
         else λ s, s.

Definition fresh (size : Z) : @CompressorPool worker :=
  mkPool size "model" "cpu" true [] [] ∅.

Definition built : worker := ("model", "cpu", true).

(** The pool that [CompressorPool(2, "model", "cpu", True)] returns. *)
Definition started : @CompressorPool worker :=
  mkPool 2 "model" "cpu" true [built; built] [0; 1] ∅.

(** A pool of capacity 1 whose only slot is in use. *)
Definition busy : @CompressorPool worker :=
  mkPool 1 "model" "cpu" true [built] [] {[0]}.

(** A pool of capacity 4 with slot 3 in use. *)
Definition four : @CompressorPool worker :=
  mkPool 4 "model" "cpu" true [built; built; built; built] [0; 1; 2] {[3]}.

(** A thread that starts at time 0 with the given pool, after [calls]
    calls of the constructor. *)
Definition at_start (p : @CompressorPool worker) (calls : nat) : @World worker nat :=
  mkWorld p 0%Q 0%nat calls.

Definition request : CompressRequest :=
  mkRequest (Some ["some text"]) (Some (Finite (1 # 2))) (Some 0)
            (Some PosInf) (Some NaN) (Some 300) (Some "") None.

(** A worker method that returns all four results, results being strings
    here, and a rendering of the caught exceptions. *)
Definition compress (c : worker) (context : option (list string))
    (params : gmap string pyval) (calls : nat) : (gmap string string + string) * nat :=
  (inl (<["compressed_prompt_list" := "short"]>
        (<["origin_tokens" := "10"]>
        (<["compressed_tokens" := "5"]>
        (<["rate" := "0.5"]> ∅)))), calls).

Definition str_caught (e : @caught string) : string :=
  match e with
  | CaughtHTTP _ detail => detail
  | CaughtPool _ => "Connection pool exhausted, please try again later"
  | CaughtKeyError key => key
  | CaughtWorker err => err
  end.

(** The application before start-up, and with the pool [started]. *)
Definition starting : @App worker nat := mkApp None 0%Q 0%nat 0%nat.
Definition serving : @App worker nat := mkApp (Some started) 0%Q 0%nat 2%nat.

(** A configuration whose model path does not exist on disk. *)
Definition config : Config := mkConfig (Some "./models/local") "cuda" 2 true.
Definition relative : string → bool := λ _, false.
Definition no_file : string → bool := λ _, false.
Definition beside : string → string := String.append "/srv/app/".

End Demo.

(** ** Python lists *)

Lemma pop_snoc {A} (l : list A) (x : A) : pop (l ++ [x]) = Some (x, l).
Proof.
  induction l as [|y l IH]; simpl; [done|]. by rewrite IH.
Qed.

Lemma pop_Some {A} (l r : list A) (x : A) :
  pop l = Some (x, r) ↔ l = r ++ [x].
Proof.
  split; [|intros ->; apply pop_snoc].
  revert r x. induction l as [|y l IH]; intros r x; simpl; [done|].
  destruct (pop l) as [[z r']|] eqn:E.
  - intros [= <- <-]. by rewrite (IH r' z).
  - intros [= <- <-]. destruct l as [|z l]; [done|].
    simpl in E. by destruct (pop l) as [[??]|].
Qed.

Lemma pop_None {A} (l : list A) : pop l = None ↔ l = [].
Proof.
  split; [|by intros ->].
  destruct l as [|y l]; [done|]. simpl. by destruct (pop l) as [[??]|].
Qed.

Lemma index_elem_of {A} (l : list A) (i : Z) (x : A) :
  index l i = Some x → x ∈ l.
Proof.
  unfold index. intros H.
  repeat case_match; try done; by eapply list_elem_of_lookup_2.
Qed.

Lemma index_in_range {A} (l : list A) (i : Z) :
  0 ≤ i < Z.of_nat (length l) → is_Some (index l i).
Proof.
  intros [H0 H1]. unfold index.
  destruct (Z.leb_spec 0 i); [|lia].
  apply lookup_lt_is_Some. lia.
Qed.

(** ** The request parameters *)

Lemma store_if_lookup_ne {A} (f : option A) test k inj params (k' : string) :
  k ≠ k' → store_if f test k inj params !! k' = params !! k'.
Proof.
  intros Hne. unfold store_if.
  destruct f as [x|]; [|done]. destruct (test x); [|done].
  by rewrite lookup_insert_ne.
Qed.

Lemma store_if_lookup_eq {A} (f : option A) test k inj params v :
  params !! k = None →
  store_if f test k inj params !! k = Some v ↔
  ∃ x, f = Some x ∧ test x = true ∧ v = inj x.
Proof.
  intros Hk. unfold store_if.
  destruct f as [x|]; [destruct (test x) eqn:E|].
  - rewrite lookup_insert_eq. split; [intros [= <-]; eauto|].
    by intros (? & [= <-] & _ & ->).
  - rewrite Hk. split; [done|]. intros (? & [= <-] & ? & _). congruence.
  - rewrite Hk. split; [done|]. by intros (? & ? & _).
Qed.

Lemma float_pos_spec x : float_pos x = true ↔ strictly_positive x.
Proof.
  unfold strictly_positive. destruct x as [q| | |]; simpl.
  - destruct (Qlt_le_dec 0 q) as [H|H].
    + split; [eauto|done].
    + split; [done|]. intros [|(q' & [= <-] & Hq)]; [done|].
      exfalso. by apply (Qlt_not_le _ _ Hq).
  - split; [by left|done].
  - split; [done|]. by intros [|(? & ? & _)].
  - split; [done|]. by intros [|(? & ? & _)].
Qed.

Lemma float_unit_spec x :
  float_pos x && float_le_one x = true ↔ in_unit_interval x.
Proof.
  unfold in_unit_interval. rewrite andb_true_iff.
  destruct x as [q| | |]; simpl.
  - destruct (Qlt_le_dec 0 q) as [H0|H0], (Qlt_le_dec 1 q) as [H1|H1].
    + split; [by intros [_ ?]|]. intros (q' & [= <-] & _ & Hq).
      exfalso. by apply (Qlt_not_le _ _ H1).
    + split; [eauto|done].
    + split; [by intros [? _]|]. intros (q' & [= <-] & Hq & _).
      exfalso. by apply (Qlt_not_le _ _ Hq).
    + split; [by intros [? _]|]. intros (q' & [= <-] & Hq & _).
      exfalso. by apply (Qlt_not_le _ _ Hq).
  - split; [by intros [_ ?]|]. by intros (? & ? & _).
  - split; [by intros [? _]|]. by intros (? & ? & _).
  - split; [by intros [? _]|]. by intros (? & ? & _).
Qed.

Ltac other_keys :=
  repeat (rewrite store_if_lookup_ne; [|done]).

(** C10. [build_compression_params] returns a dictionary for every request
    (it is a total function: nothing in it can raise), and a key is in
    the dictionary, bound to the value of the request's field, exactly
    when that field is set and passes its range check: [rate] and
    [context_level_rate] in (0, 1]; [target_token],
    [target_context_level_rate] and [context_level_target_token] strictly
    positive; [chunk_end_tokens] not the empty string. No other key is
    ever present. *)
Theorem build_compression_params_keys (request : CompressRequest) :
  let params := build_compression_params request in
  (∀ v, params !! "rate" = Some v ↔
        ∃ x, rate request = Some x ∧ in_unit_interval x ∧ v = VFloat x) ∧
  (∀ v, params !! "target_token" = Some v ↔
        ∃ n, target_token request = Some n ∧ 0 < n ∧ v = VInt n) ∧
  (∀ v, params !! "target_context_level_rate" = Some v ↔
        ∃ x, target_context_level_rate request = Some x ∧
             strictly_positive x ∧ v = VFloat x) ∧
  (∀ v, params !! "context_level_rate" = Some v ↔
        ∃ x, context_level_rate request = Some x ∧ in_unit_interval x ∧
             v = VFloat x) ∧
  (∀ v, params !! "context_level_target_token" = Some v ↔
        ∃ n, context_level_target_token request = Some n ∧ 0 < n ∧ v = VInt n) ∧
  (∀ v, params !! "chunk_end_tokens" = Some v ↔
        ∃ s, chunk_end_tokens request = Some s ∧ s ≠ "" ∧ v = VStr s) ∧
  (∀ k, is_Some (params !! k) →
        k ∈ ["rate"; "target_token"; "target_context_level_rate";
             "context_level_rate"; "context_level_target_token";
             "chunk_end_tokens"]).
Proof.
  cbv zeta. unfold build_compression_params.
  split_and!; try intros v.
  - other_keys. rewrite store_if_lookup_eq by done.
    by setoid_rewrite float_unit_spec.
  - other_keys. rewrite store_if_lookup_eq by (by other_keys).
    by setoid_rewrite Z.ltb_lt.
  - other_keys. rewrite store_if_lookup_eq by (by other_keys).
    by setoid_rewrite float_pos_spec.
  - other_keys. rewrite store_if_lookup_eq by (by other_keys).
    by setoid_rewrite float_unit_spec.
  - other_keys. rewrite store_if_lookup_eq by (by other_keys).
    by setoid_rewrite Z.ltb_lt.
  - rewrite store_if_lookup_eq by (by other_keys).
    by setoid_rewrite bool_decide_eq_true.
  - rename v into k. intros Hk. rewrite !elem_of_cons.
    destruct (decide (k = "rate")); [tauto|].
    destruct (decide (k = "target_token")); [tauto|].
    destruct (decide (k = "target_context_level_rate")); [tauto|].
    destruct (decide (k = "context_level_rate")); [tauto|].
    destruct (decide (k = "context_level_target_token")); [tauto|].
    destruct (decide (k = "chunk_end_tokens")); [tauto|].
    exfalso. revert Hk. other_keys. rewrite lookup_empty. by intros [??].
Qed.

(** ** The pool: one critical section at a time *)

Section Properties.

Context {Worker Ext : Type}.
Variable PromptCompressor : string → string → bool → Ext → option Worker * Ext.
Variable others : nat → list step.
Variable oversleep : nat → Q.

Abbreviation CompressorPool := (@CompressorPool Worker).
Abbreviation World := (@World Worker Ext).

Abbreviation loop := (get_compressor_loop others oversleep).
Abbreviation later := (after_sleeps others oversleep).
Abbreviation drain := (drain_loop others oversleep).

Implicit Types (p : CompressorPool) (w : World) (i : Z) (tr : list step).

Lemma acquire_locked_None p :
  acquire_locked p = None ↔ available p = [].
Proof.
  unfold acquire_locked. rewrite <- pop_None.
  destruct (pop (available p)) as [[i rest]|]; [|done].
  simpl. by destruct (index (pool p) i).
Qed.

Lemma acquire_locked_Some p r p' :
  acquire_locked p = Some (r, p') →
  ∃ i rest,
    available p = rest ++ [i] ∧
    p' = set_slots (pool p) rest ({[i]} ∪ in_use p) p ∧
    match r with
    | Ok (c, j) => j = i ∧ index (pool p) i = Some c
    | Raise x => x = IndexError ∧ index (pool p) i = None
    end.
Proof.
  unfold acquire_locked.
  destruct (pop (available p)) as [[i rest]|] eqn:E; [|done].
  apply pop_Some in E. simpl.
  destruct (index (pool p) i) as [c|] eqn:Ei; intros [= <- <-];
    exists i, rest; by rewrite ?Ei.
Qed.

Lemma release_compressor_absent i p :
  i ∉ in_use p → release_compressor i p = p.
Proof. intros H. unfold release_compressor. by rewrite decide_False. Qed.

Lemma release_compressor_gone i p : i ∉ in_use (release_compressor i p).
Proof.
  unfold release_compressor. case_decide; simpl; set_solver.
Qed.

(** C5. [release_compressor] returns normally on every ticket (it is a
    total function on the pool). When the ticket is not in [in_use] the
    pool is left exactly as it was; and whatever the ticket, releasing it
    a second time changes nothing. *)
Theorem release_compressor_noop i p :
  (i ∉ in_use p → release_compressor i p = p) ∧
  release_compressor i (release_compressor i p) = release_compressor i p.
Proof.
  split; [apply release_compressor_absent|].
  apply release_compressor_absent, release_compressor_gone.
Qed.

(** *** The invariant *)

Lemma consistent_index p i :
  consistent p → i ∈ available p ∨ i ∈ in_use p → is_Some (index (pool p) i).
Proof.
  intros Hc Hi. apply index_in_range. by apply (cons_range _ Hc).
Qed.

Lemma acquire_locked_consistent p r p' :
  consistent p → acquire_locked p = Some (r, p') →
  consistent p' ∧ ∃ c i, r = Ok (c, i) ∧ i ∉ in_use p.
Proof.
  intros Hc (i & rest & Hav & -> & Hr)%acquire_locked_Some.
  destruct Hc as [Hnd Hdis Hrange Hcount].
  rewrite Hav in Hnd, Hdis, Hrange, Hcount.
  apply NoDup_app in Hnd as (Hnd & Hfresh & _).
  assert (i ∉ in_use p) as Hi by (apply Hdis; set_solver).
  assert (i ∉ rest) as Hi' by (intros ?; eapply Hfresh; [done|set_solver]).
  split.
  - constructor; simpl; [done|..].
    + intros j Hj. specialize (Hdis j). set_solver.
    + intros j. rewrite <- Hrange. set_solver.
    + rewrite size_union by set_solver. rewrite size_singleton.
      rewrite length_app in Hcount. simpl in Hcount. lia.
  - destruct r as [[c j]|x].
    + destruct Hr as [-> _]. eauto.
    + destruct Hr as [_ Hr].
      assert (is_Some (index (pool p) i)) as [? ?]; [|congruence].
      apply index_in_range. apply Hrange. set_solver.
Qed.

Lemma release_compressor_consistent i p :
  consistent p → consistent (release_compressor i p).
Proof.
  intros Hc. unfold release_compressor. case_decide as Hi; [|done].
  destruct Hc as [Hnd Hdis Hrange Hcount].
  assert (i ∉ available p) as Hi' by (intros ?; by eapply Hdis).
  constructor; simpl.
  - apply NoDup_app. split_and!; [done|set_solver|apply NoDup_singleton].
  - intros j Hj. specialize (Hdis j). set_solver.
  - intros j. rewrite <- Hrange.
    destruct (decide (j = i)) as [->|]; set_solver.
  - rewrite length_app. simpl.
    assert (size (in_use p) = size (in_use p ∖ {[i]}) + 1)%nat; [|lia].
    rewrite (union_difference_L {[i]} (in_use p)) at 1 by set_solver.
    rewrite size_union by set_solver. rewrite size_singleton. lia.
Qed.

Lemma run_step_consistent p s : consistent p → consistent (run_step p s).
Proof.
  intros Hc. destruct s as [|i]; simpl.
  - destruct (acquire_locked p) as [[r p']|] eqn:E; [|done].
    by apply (acquire_locked_consistent _ _ _ Hc E).
  - by apply release_compressor_consistent.
Qed.

Lemma run_steps_consistent tr p : consistent p → consistent (run_steps p tr).
Proof.
  revert p. induction tr as [|s tr IH]; intros p Hc; [done|].
  apply IH. by apply run_step_consistent.
Qed.

(** *** [cleanup] *)

(** [cleanup] ends the life of the pool: both index collections and the
    worker list are empty afterwards, whatever the capacity was, and a
    second [cleanup] changes nothing. *)
Lemma cleanup_empties p :
  pool (cleanup p) = [] ∧ available (cleanup p) = [] ∧ in_use (cleanup p) = ∅ ∧
  pool_size (cleanup p) = pool_size p ∧ cleanup (cleanup p) = cleanup p.
Proof. done. Qed.

(** *** [get_status] *)

(** C7. [get_status] leaves the pool as it is and returns a dictionary
    with the capacity, the number of available indices, the number of
    indices in use, the model name and the device, read from one and the
    same pool state. On a consistent pool of capacity 4 with one index in
    use it reports capacity 4, 3 available, 1 in use. *)
Theorem get_status_snapshot p :
  let d := (get_status p).1 in
  (get_status p).2 = p ∧
  d !! "pool_size" = Some (VInt (pool_size p)) ∧
  d !! "available" = Some (VInt (Z.of_nat (length (available p)))) ∧
  d !! "in_use" = Some (VInt (Z.of_nat (size (in_use p)))) ∧
  d !! "model_name" = Some (VStr (model_name p)) ∧
  d !! "device_map" = Some (VStr (device_map p)) ∧
  (consistent p → full p → pool_size p = 4 → size (in_use p) = 1%nat →
   d !! "pool_size" = Some (VInt 4) ∧
   d !! "available" = Some (VInt 3) ∧
   d !! "in_use" = Some (VInt 1)).
Proof.
  cbv zeta. unfold get_status. simpl.
  split_and!; try done.
  intros Hc Hf H4 H1. pose proof (cons_count _ Hc) as Hcount.
  unfold full in Hf. rewrite H4 in Hf. rewrite H1 in Hcount.
  assert (length (available p) = 3%nat) as Hav by lia.
  rewrite H4. split_and!; simplify_map_eq; by rewrite ?Hav, ?H1.
Qed.

(** *** [_initialize_pool] *)

Lemma set_slots_id p : set_slots (pool p) (available p) (in_use p) p = p.
Proof. by destruct p. Qed.

Lemma initialize_loop_construct indices p e :
  initialize_loop PromptCompressor indices p e =
  let '(ws, ok, e') :=
    construct PromptCompressor (length indices)
              (model_name p) (device_map p) (use_llmlingua2 p) e in
  (if ok then Ok tt else Raise ConstructionError,
   set_slots (pool p ++ ws) (available p ++ take (length ws) indices) (in_use p) p,
   e').
Proof.
  revert p e. induction indices as [|i rest IH]; intros p e; simpl.
  - by rewrite !app_nil_r, set_slots_id.
  - destruct (PromptCompressor _ _ _ e) as [[c|] e1]; simpl.
    + rewrite IH. simpl.
      destruct (construct _ _ _ _ _ e1) as [[ws ok] e2]. simpl.
      by rewrite <- !app_assoc.
    + by rewrite !app_nil_r, set_slots_id.
Qed.

Lemma construct_length n m d u e :
  let '(ws, ok, _) := construct PromptCompressor n m d u e in
  (length ws ≤ n)%nat ∧ (ok = true ↔ length ws = n).
Proof.
  revert e. induction n as [|n IH]; intros e; simpl; [done|].
  destruct (PromptCompressor m d u e) as [[c|] e1]; simpl.
  - specialize (IH e1). destruct (construct _ _ _ _ _ e1) as [[ws ok] e2].
    simpl. destruct IH as [? [? ?]]. split; [lia|].
    split; [intros; f_equal; auto|intros [= ?]; auto].
  - split; [lia|]. split; done.
Qed.

Lemma construct_built n m d u e :
  Forall (built_with PromptCompressor m d u)
         (construct PromptCompressor n m d u e).1.1.
Proof.
  revert e. induction n as [|n IH]; intros e; simpl; [constructor|].
  destruct (PromptCompressor m d u e) as [[c|] e1] eqn:E; simpl; [|constructor].
  specialize (IH e1). destruct (construct _ _ _ _ _ e1) as [[ws ok] e2].
  simpl in *. constructor; [|done]. exists e. by rewrite E.
Qed.

Lemma take_seqZ (k : nat) (n : Z) :
  (k ≤ Z.to_nat n)%nat → take k (seqZ 0 n) = seqZ 0 (Z.of_nat k).
Proof.
  intros Hk. destruct (decide (n ≤ 0)).
  { replace k with 0%nat by lia. by rewrite take_0. }
  replace n with (Z.of_nat k + (n - Z.of_nat k)) by lia.
  rewrite seqZ_app by lia.
  rewrite take_app_length'; [done|]. rewrite length_seqZ. lia.
Qed.

Lemma _initialize_pool_construct p e :
  _initialize_pool PromptCompressor p e =
  let '(ws, ok, e') :=
    construct PromptCompressor (Z.to_nat (pool_size p))
              (model_name p) (device_map p) (use_llmlingua2 p) e in
  (if ok then Ok tt else Raise ConstructionError,
   set_slots (pool p ++ ws) (available p ++ seqZ 0 (Z.of_nat (length ws)))
             (in_use p) p,
   e').
Proof.
  unfold _initialize_pool. rewrite initialize_loop_construct.
  rewrite length_seqZ.
  pose proof (construct_length (Z.to_nat (pool_size p)) (model_name p)
                (device_map p) (use_llmlingua2 p) e) as Hlen.
  destruct (construct _ _ _ _ _ e) as [[ws ok] e'].
  destruct Hlen as [Hle _]. by rewrite take_seqZ.
Qed.


(** C3, as the code has it. [_initialize_pool] raises exactly when one of
    the calls of the constructor raises, and the exception reaches the
    caller; there is no rollback: the workers built before the failing
    call and their indices stay in [pool] and [available] of the object.
    When this happens inside [__init__] the caller is given no object. *)
Theorem _initialize_pool_no_rollback p e size m d u :
  (let '(ws, ok, e1) :=
     construct PromptCompressor (Z.to_nat (pool_size p))
               (model_name p) (device_map p) (use_llmlingua2 p) e in
   _initialize_pool PromptCompressor p e =
     (if ok then Ok tt else Raise ConstructionError,
      set_slots (pool p ++ ws) (available p ++ seqZ 0 (Z.of_nat (length ws)))
                (in_use p) p,
      e1) ∧
   (ok = false ↔ (length ws < Z.to_nat (pool_size p))%nat)) ∧
  (let '(ws, ok, e1) := construct PromptCompressor (Z.to_nat size) m d u e in
   __init__ PromptCompressor size m d u e =
     (if ok
      then Ok (mkPool size m d u ws (seqZ 0 (Z.of_nat (length ws))) ∅)
      else Raise ConstructionError,
      e1)).
Proof.
  split.
  - rewrite _initialize_pool_construct.
    pose proof (construct_length (Z.to_nat (pool_size p)) (model_name p)
                  (device_map p) (use_llmlingua2 p) e) as Hlen.
    destruct (construct _ _ _ _ _ e) as [[ws ok] e1].
    destruct Hlen as [Hle Hok]. split; [done|].
    destruct ok.
    + split; [done|]. intros Hlt.
      assert (length ws = Z.to_nat (pool_size p)) by by apply Hok. lia.
    + split; [|done]. intros _.
      destruct (decide (length ws = Z.to_nat (pool_size p))) as [Heq|]; [|lia].
      by apply Hok in Heq.
  - unfold __init__. rewrite _initialize_pool_construct. simpl.
    destruct (construct _ _ _ _ _ e) as [[ws ok] e1]. by destruct ok.
Qed.


(** *** A pool fresh from [__init__] *)

Lemma rebuilt_consistent (ws : list Worker) size m d u :
  consistent (mkPool size m d u ws (seqZ 0 (Z.of_nat (length ws))) ∅).
Proof.
  clear PromptCompressor others oversleep.
  constructor; cbn [available in_use pool].
  - apply NoDup_seqZ.
  - set_solver.
  - intros i. rewrite elem_of_seqZ. set_solver by lia.
  - rewrite length_seqZ, size_empty. lia.
Qed.

Lemma init_returns size m d u e p0 e' :
  __init__ PromptCompressor size m d u e = (Ok p0, e') →
  consistent p0 ∧ in_use p0 = ∅ ∧ (0 ≤ size → full p0) ∧
  pool_size p0 = size ∧ model_name p0 = m ∧ device_map p0 = d ∧
  use_llmlingua2 p0 = u ∧
  Forall (built_with PromptCompressor m d u) (pool p0).
Proof.
  unfold __init__. rewrite _initialize_pool_construct. simpl.
  pose proof (construct_length (Z.to_nat size) m d u e) as Hlen.
  pose proof (construct_built (Z.to_nat size) m d u e) as Hb.
  destruct (construct _ _ _ _ _ e) as [[ws ok] e1]. simpl in Hb.
  destruct Hlen as [_ Hok]. destruct ok; [|done]. intros [= <- <-].
  split_and!; try done.
  - apply rebuilt_consistent.
  - intros Hs. unfold full. simpl. rewrite (proj1 Hok) by done. lia.
Qed.

(** *** Who holds what *)

Lemma holders_step_invariant p h s :
  consistent p → NoDup h → (∀ i, i ∈ h ↔ i ∈ in_use p) →
  NoDup (holders_step p h s) ∧
  (∀ i, i ∈ holders_step p h s ↔ i ∈ in_use (run_step p s)).
Proof.
  intros Hc Hnd Hh. destruct s as [|i]; simpl.
  - destruct (acquire_locked p) as [[r p']|] eqn:E; [|done].
    destruct (acquire_locked_consistent _ _ _ Hc E) as (_ & c & i & -> & Hi).
    apply acquire_locked_Some in E as (i' & rest & _ & -> & -> & _). simpl.
    split.
    + constructor; [by rewrite Hh|done].
    + intros j. rewrite elem_of_cons, Hh. set_solver.
  - split; [by apply NoDup_filter|].
    intros j. rewrite list_elem_of_filter, Hh.
    unfold release_compressor. case_decide; simpl; set_solver.
Qed.

Lemma holders_invariant tr p h :
  consistent p → NoDup h → (∀ i, i ∈ h ↔ i ∈ in_use p) →
  NoDup (holders p h tr) ∧
  (∀ i, i ∈ holders p h tr ↔ i ∈ in_use (run_steps p tr)).
Proof.
  revert p h. induction tr as [|s tr IH]; intros p h Hc Hnd Hh; [done|].
  simpl. destruct (holders_step_invariant p h s Hc Hnd Hh) as [Hnd' Hh'].
  apply IH; [by apply run_step_consistent|done|done].
Qed.

(** C1. Start from a pool that [__init__] has returned and let the
    threads run any sequence of critical sections of [get_compressor]
    and [release_compressor]. At every point of the run no ticket is out
    twice, the tickets that are out are exactly the indices in [in_use],
    and a [get_compressor] that succeeds next returns an index that is not
    out: an index handed out is not handed out again before it is given to
    [release_compressor]. *)
Theorem no_index_held_twice size m d u e p0 e' tr :
  __init__ PromptCompressor size m d u e = (Ok p0, e') →
  let p := run_steps p0 tr in
  let h := holders p0 [] tr in
  NoDup h ∧
  (∀ i, i ∈ h ↔ i ∈ in_use p) ∧
  (∀ c i p', acquire_locked p = Some (Ok (c, i), p') → i ∉ h).
Proof.
  intros H0. apply init_returns in H0 as (Hc & Hiu & _). cbv zeta.
  destruct (holders_invariant tr p0 [] Hc) as [Hnd Hh];
    [constructor|rewrite Hiu; set_solver|].
  split_and!; [done|done|].
  intros c i p' E. rewrite Hh.
  pose proof (run_steps_consistent tr p0 Hc) as Hc'.
  destruct (acquire_locked_consistent _ _ _ Hc' E) as (_ & c' & i' & [= -> ->] & Hi).
  done.
Qed.


(** ** The pool over time *)

Lemma run_step_static p s :
  pool (run_step p s) = pool p ∧ pool_size (run_step p s) = pool_size p ∧
  model_name (run_step p s) = model_name p ∧
  device_map (run_step p s) = device_map p ∧
  use_llmlingua2 (run_step p s) = use_llmlingua2 p.
Proof.
  destruct s as [|i]; simpl.
  - destruct (acquire_locked p) as [[r p']|] eqn:E; [|done].
    by apply acquire_locked_Some in E as (? & ? & _ & -> & _).
  - unfold release_compressor. by case_decide.
Qed.

Lemma run_steps_static tr p :
  pool (run_steps p tr) = pool p ∧ pool_size (run_steps p tr) = pool_size p ∧
  model_name (run_steps p tr) = model_name p ∧
  device_map (run_steps p tr) = device_map p ∧
  use_llmlingua2 (run_steps p tr) = use_llmlingua2 p.
Proof.
  revert p. induction tr as [|s tr IH]; intros p; [done|].
  change (run_steps p (s :: tr)) with (run_steps (run_step p s) tr).
  destruct (IH (run_step p s)) as (-> & -> & -> & -> & ->).
  apply run_step_static.
Qed.

Lemma run_steps_app p tr1 tr2 :
  run_steps p (tr1 ++ tr2) = run_steps (run_steps p tr1) tr2.
Proof. apply foldl_app. Qed.

Lemma after_sleeps_succ k w :
  after_sleeps others oversleep (S k) w =
  time_sleep others oversleep poll_interval (after_sleeps others oversleep k w).
Proof. revert w. induction k as [|k IH]; intros w; [done|]. apply (IH _). Qed.

Lemma after_sleeps_facts k w :
  let w' := after_sleeps others oversleep k w in
  w_pool w' = run_steps (w_pool w) (during others (sleeps w) k) ∧
  sleeps w' = (sleeps w + k)%nat ∧ ext w' = ext w.
Proof.
  revert w. induction k as [|k IH]; intros w; simpl.
  - split_and!; [done|lia|done].
  - destruct (IH (time_sleep others oversleep poll_interval w)) as (-> & -> & ->).
    simpl. rewrite run_steps_app. split_and!; [done|lia|done].
Qed.

Lemma after_sleeps_consistent k w :
  consistent (w_pool w) → consistent (w_pool (after_sleeps others oversleep k w)).
Proof.
  intros Hc. destruct (after_sleeps_facts k w) as (-> & _).
  by apply run_steps_consistent.
Qed.

Lemma after_sleeps_static k w :
  let p := w_pool w in
  let p' := w_pool (after_sleeps others oversleep k w) in
  pool p' = pool p ∧ pool_size p' = pool_size p ∧ model_name p' = model_name p ∧
  device_map p' = device_map p ∧ use_llmlingua2 p' = use_llmlingua2 p.
Proof.
  cbv zeta. destruct (after_sleeps_facts k w) as (-> & _).
  apply run_steps_static.
Qed.

(** The clock never runs backwards when no sleep is cut short, and it is
    exactly [k] poll intervals later after [k] sleeps that last what they
    were asked to. *)
Lemma after_sleeps_now_ge k w :
  (∀ n, 0 <= oversleep n)%Q →
  (now w + inject_Z (Z.of_nat k) * poll_interval <=
   now (after_sleeps others oversleep k w))%Q.
Proof.
  intros Hov. induction k as [|k IH].
  - change (inject_Z (Z.of_nat 0)) with 0%Q. simpl. lra.
  - rewrite after_sleeps_succ. simpl now.
    rewrite Nat2Z.inj_succ. unfold Z.succ. rewrite inject_Z_plus.
    specialize (Hov (sleeps (after_sleeps others oversleep k w))).
    change (inject_Z 1) with 1%Q. unfold poll_interval in *. lra.
Qed.



(** *** The polling loop of [get_compressor] *)


Lemma get_compressor_loop_more_fuel fuel fuel' T s w x :
  (fuel ≤ fuel')%nat → loop fuel T s w = Some x → loop fuel' T s w = Some x.
Proof.
  revert fuel' w. induction fuel as [|fuel IH]; intros fuel' w Hle; simpl.
  - destruct (Qlt_le_dec (now w - s) T) as [|Hge]; [done|].
    intros [= <-].
    destruct fuel'; simpl; destruct (Qlt_le_dec (now w - s) T); try done;
      exfalso; lra.
  - destruct fuel' as [|fuel']; [lia|]. simpl.
    destruct (Qlt_le_dec (now w - s) T); [|done].
    destruct (acquire_locked (w_pool w)) as [[r p']|]; [done|].
    apply IH. lia.
Qed.

Lemma get_compressor_loop_result fuel T s w r w' :
  loop fuel T s w = Some (r, w') →
  ∃ k, (k ≤ fuel)%nat ∧
    (∀ j, (j < k)%nat →
          available (w_pool (later j w)) = [] ∧ (now (later j w) - s < T)%Q) ∧
    ((r = Raise PoolExhausted ∧ w' = later k w ∧ (T <= now w' - s)%Q) ∨
     ((k < fuel)%nat ∧ (now (later k w) - s < T)%Q ∧
      ∃ p', acquire_locked (w_pool (later k w)) = Some (r, p') ∧
            w' = with_pool p' (later k w))).
Proof.
  revert w. induction fuel as [|fuel IH]; intros w; simpl.
  - destruct (Qlt_le_dec (now w - s) T) as [Hlt|Hge]; [done|].
    intros [= <- <-]. exists 0%nat. split_and!; [lia|intros; lia|by left].
  - destruct (Qlt_le_dec (now w - s) T) as [Hlt|Hge].
    + destruct (acquire_locked (w_pool w)) as [[r0 p']|] eqn:E.
      * intros [= <- <-]. exists 0%nat.
        split_and!; [lia|intros; lia|]. right. split_and!; [lia|done|by eauto].
      * intros (k & Hk & Hbefore & Hres)%IH. exists (S k).
        split_and!; [lia| |].
        -- intros [|j] Hj; [by apply acquire_locked_None in E|].
           apply Hbefore. lia.
        -- destruct Hres as [?|(? & ? & ?)]; [by left|right].
           split_and!; [lia|done|done].
    + intros [= <- <-]. exists 0%nat. split_and!; [lia|intros; lia|by left].
Qed.

Lemma get_compressor_loop_terminates fuel T s w :
  (∀ n, 0 <= oversleep n)%Q →
  (T - (now w - s) <= inject_Z (Z.of_nat fuel) * poll_interval)%Q →
  is_Some (loop fuel T s w).
Proof.
  intros Hov. revert w. induction fuel as [|fuel IH]; intros w Hfuel; simpl.
  - destruct (Qlt_le_dec (now w - s) T) as [Hlt|Hge]; [|by eexists].
    change (inject_Z (Z.of_nat 0)) with 0%Q in Hfuel. exfalso. lra.
  - destruct (Qlt_le_dec (now w - s) T) as [Hlt|Hge]; [|by eexists].
    destruct (acquire_locked (w_pool w)) as [[r p']|]; [by eexists|].
    apply IH. simpl now.
    rewrite Nat2Z.inj_succ in Hfuel. unfold Z.succ in Hfuel.
    rewrite inject_Z_plus in Hfuel. change (inject_Z 1) with 1%Q in Hfuel.
    specialize (Hov (sleeps w)). unfold poll_interval in *. lra.
Qed.

(** The number of polls that a timeout allows when sleeps last what they
    are asked to: the least [k] with [T <= k / 10]. *)
Lemma polls_enough (T : Q) :
  (T <= inject_Z (Z.of_nat (Z.to_nat (Qceiling (T * 10)))) * poll_interval)%Q.
Proof.
  pose proof (Qle_ceiling (T * 10)) as Hc.
  assert (inject_Z (Qceiling (T * 10)) <=
          inject_Z (Z.of_nat (Z.to_nat (Qceiling (T * 10)))))%Q as Hm.
  { rewrite <- Zle_Qle. lia. }
  unfold poll_interval. lra.
Qed.




(** C9. With a timeout that is zero or negative, [get_compressor] raises the
    pool-exhausted exception at once, whatever the pool holds (also when
    indices are available), and leaves the pool and the clock as they
    were. The result is there for every [fuel], also for [fuel = 0]: the
    body of the loop, and with it the test of [available], is never
    entered. *)
Theorem get_compressor_timeout_nonpositive fuel T w :
  (T <= 0)%Q →
  get_compressor others oversleep fuel T w = Some (Raise PoolExhausted, w).
Proof.
  intros HT. unfold get_compressor.
  destruct fuel; simpl; destruct (Qlt_le_dec (now w - now w) T) as [Hlt|Hge];
    try done; exfalso; lra.
Qed.

(** C4. On a consistent pool, and when no sleep is cut short,
    [get_compressor] returns, in one of two ways. Either a poll finds
    [available] non-empty before the timeout has elapsed: then the last
    index of [available] moves to [in_use] (where it was not), nothing
    else changes, and the call returns the worker stored at that index
    together with the index. Or every poll made before the timeout
    elapsed found [available] empty: then the call raises the
    pool-exhausted exception, and the pool is what the other threads made
    of it during the sleeps (unchanged if there are none); no worker is
    returned. *)
Theorem get_compressor_outcome T w :
  consistent (w_pool w) →
  (∀ n, 0 <= oversleep n)%Q →
  ∃ n r w',
    (∀ fuel, (n ≤ fuel)%nat →
             get_compressor others oversleep fuel T w = Some (r, w')) ∧
    ∃ k, let wk := later k w in
      (∀ j, (j < k)%nat → available (w_pool (later j w)) = []) ∧
      ((∃ c i rest,
          r = Ok (c, i) ∧
          (now wk - now w < T)%Q ∧
          available (w_pool wk) = rest ++ [i] ∧
          (i ∉ in_use (w_pool wk)) ∧
          index (pool (w_pool wk)) i = Some c ∧
          w' = with_pool (set_slots (pool (w_pool wk)) rest
                                    ({[i]} ∪ in_use (w_pool wk)) (w_pool wk)) wk) ∨
       (r = Raise PoolExhausted ∧
        (T <= now wk - now w)%Q ∧
        w' = wk ∧
        w_pool w' = run_steps (w_pool w) (during others (sleeps w) k))).
Proof.
  intros Hc Hov. set (n := Z.to_nat (Qceiling (T * 10))).
  destruct (get_compressor_loop_terminates n T (now w) w Hov) as [[r w'] Hrun].
  { pose proof (polls_enough T). fold n in H. lra. }
  exists n, r, w'. split.
  { intros fuel Hfuel. unfold get_compressor.
    by apply (get_compressor_loop_more_fuel n). }
  apply get_compressor_loop_result in Hrun as (k & _ & Hbefore & Hres).
  exists k. cbv zeta. split; [intros j Hj; by apply Hbefore|].
  destruct Hres as [(-> & -> & Hend)|(_ & Hlt & p' & Hacq & ->)].
  - right. split_and!; [done|done|done|].
    by destruct (after_sleeps_facts k w) as (-> & _).
  - left. pose proof (after_sleeps_consistent k w Hc) as Hck.
    destruct (acquire_locked_consistent _ _ _ Hck Hacq) as (_ & c & i & -> & Hi).
    apply acquire_locked_Some in Hacq as (i' & rest & Hav & -> & -> & Hidx).
    exists c, i', rest. by split_and!.
Qed.


Lemma get_compressor_result fuel T w r w' :
  get_compressor others oversleep fuel T w = Some (r, w') →
  ∃ k, (r = Raise PoolExhausted ∧ w' = later k w) ∨
       (∃ p', acquire_locked (w_pool (later k w)) = Some (r, p') ∧
              w' = with_pool p' (later k w)).
Proof.
  unfold get_compressor.
  intros (k & _ & _ & Hres)%get_compressor_loop_result. exists k.
  destruct Hres as [(? & ? & _)|(_ & _ & ?)]; [by left|by right].
Qed.

(** What a call of [get_compressor] does to the pool is what a sequence of
    critical sections does: those of the other threads during its sleeps,
    followed, when it succeeds, by its own. *)
Lemma get_compressor_steps fuel T w r w' :
  get_compressor others oversleep fuel T w = Some (r, w') →
  ∃ k, let tr := during others (sleeps w) k in
    (r = Raise PoolExhausted ∧ w_pool w' = run_steps (w_pool w) tr) ∨
    (acquire_locked (run_steps (w_pool w) tr) = Some (r, w_pool w') ∧
     w_pool w' = run_steps (w_pool w) (tr ++ [Take])).
Proof.
  intros [k Hres]%get_compressor_result. exists k. cbv zeta.
  destruct (after_sleeps_facts k w) as (Hp & _). rewrite <- Hp.
  destruct Hres as [[-> ->]|(p' & Hacq & ->)]; [by left|right].
  split; [done|]. rewrite run_steps_app, <- Hp. simpl. by rewrite Hacq.
Qed.

(** *** The waiting loop of [update_model] *)


Lemma drain_loop_result fuel w w' :
  drain fuel w = Some w' →
  ∃ k, (k < fuel)%nat ∧ w' = later k w ∧ in_use (w_pool w') = ∅.
Proof.
  revert w. induction fuel as [|fuel IH]; intros w; simpl; [done|].
  case_decide as Hiu.
  - intros [= <-]. exists 0%nat. split_and!; [lia|done|done].
  - intros (k & ? & ? & ?)%IH. exists (S k). split_and!; [lia|done|done].
Qed.

Lemma drain_loop_drains k w :
  (∀ j, (j < k)%nat → in_use (w_pool (later j w)) ≠ ∅) →
  in_use (w_pool (later k w)) = ∅ →
  (∀ fuel, (k < fuel)%nat → drain fuel w = Some (later k w)) ∧
  (∀ fuel, (fuel ≤ k)%nat → drain fuel w = None).
Proof.
  revert w. induction k as [|k IH]; intros w Hbusy Hfree.
  - split; intros fuel Hfuel.
    + destruct fuel as [|fuel]; [lia|]. simpl in *. by rewrite decide_True.
    + by replace fuel with 0%nat by lia.
  - specialize (Hbusy 0%nat ltac:(lia)) as Hnow. simpl in Hnow.
    destruct (IH (time_sleep others oversleep poll_interval w)) as [Hyes Hno].
    { intros j Hj. apply (Hbusy (S j)). lia. }
    { done. }
    split; intros fuel Hfuel.
    + destruct fuel as [|fuel]; [lia|]. simpl. rewrite decide_False by done.
      apply Hyes. lia.
    + destruct fuel as [|fuel]; [done|]. simpl. rewrite decide_False by done.
      apply Hno. lia.
Qed.

(** If the set [in_use] never empties, [update_model] never returns. *)
Lemma drain_loop_blocked fuel w :
  (∀ j, in_use (w_pool (later j w)) ≠ ∅) → drain fuel w = None.
Proof.
  revert w. induction fuel as [|fuel IH]; intros w Hbusy; simpl; [done|].
  rewrite decide_False by apply (Hbusy 0%nat).
  apply IH. intros j. apply (Hbusy (S j)).
Qed.

Lemma disturb_static (f : slots → slots) p :
  pool (disturb f p) = pool p ∧ pool_size (disturb f p) = pool_size p ∧
  model_name (disturb f p) = model_name p ∧
  device_map (disturb f p) = device_map p ∧
  use_llmlingua2 (disturb f p) = use_llmlingua2 p.
Proof. unfold disturb. by destruct (f _) as [av iu]. Qed.

Lemma disturb_alone (f : slots → slots) p : (∀ s, f s = s) → disturb f p = p.
Proof. intros Hf. unfold disturb. rewrite Hf. by destruct p. Qed.

Lemma initialize_loop_shared_alone racing gap indices p e :
  (∀ g s, racing g s = s) →
  initialize_loop_shared PromptCompressor racing gap indices p e
  = initialize_loop PromptCompressor indices p e.
Proof.
  intros Halone. revert gap p e.
  induction indices as [|i rest IH]; intros gap p e; simpl; [done|].
  rewrite !disturb_alone by done.
  destruct (PromptCompressor _ _ _ e) as [[c|] e1]; [|done].
  rewrite disturb_alone by done. by rewrite IH.
Qed.

(** Whatever the other threads do meanwhile, the loop appends to [pool]
    the workers that the constructor returns, and nothing else. *)
Lemma initialize_loop_shared_workers racing gap indices p e :
  let res := initialize_loop_shared PromptCompressor racing gap indices p e in
  let built := construct PromptCompressor (length indices)
                         (model_name p) (device_map p) (use_llmlingua2 p) e in
  res.1.1 = (if built.1.2 then Ok tt else Raise ConstructionError) ∧
  res.2 = built.2 ∧
  pool res.1.2 = pool p ++ built.1.1 ∧
  pool_size res.1.2 = pool_size p ∧
  model_name res.1.2 = model_name p ∧
  device_map res.1.2 = device_map p ∧
  use_llmlingua2 res.1.2 = use_llmlingua2 p.
Proof.
  revert gap p e. induction indices as [|i rest IH]; intros gap p e; simpl.
  - by rewrite app_nil_r.
  - destruct (disturb_static (racing gap) p) as (Hp & Hs & Hm & Hd & Hu).
    rewrite Hm, Hd, Hu.
    destruct (PromptCompressor _ _ _ e) as [[c|] e1]; simpl.
    + set (q := set_slots _ (_ ++ [i]) _ _).
      specialize (IH (S (S gap)) q e1). cbv zeta in IH.
      assert (pool q = pool p ++ [c] ∧ pool_size q = pool_size p ∧
              model_name q = model_name p ∧ device_map q = device_map p ∧
              use_llmlingua2 q = use_llmlingua2 p) as (Hqp & Hqs & Hqm & Hqd & Hqu).
      { unfold q. simpl.
        destruct (disturb_static (racing (S gap))
                    (set_slots (pool (disturb (racing gap) p) ++ [c])
                               (available (disturb (racing gap) p))
                               (in_use (disturb (racing gap) p))
                               (disturb (racing gap) p)))
          as (-> & -> & -> & -> & ->).
        simpl. by rewrite Hp, Hs, Hm, Hd, Hu. }
      rewrite Hqp, Hqs, Hqm, Hqd, Hqu in IH.
      destruct (construct _ _ _ _ _ e1) as [[ws ok] e2]. simpl in *.
      destruct IH as (? & ? & -> & ? & ? & ? & ?).
      by rewrite <- app_assoc.
    + by rewrite app_nil_r.
Qed.

Lemma update_model_result fuel racing m d w r w' :
  update_model PromptCompressor others oversleep fuel racing m d w = Some (r, w') →
  let m' := default (model_name (w_pool w)) m in
  let d' := default (device_map (w_pool w)) d in
  ∃ k ws ok e1,
    construct PromptCompressor (Z.to_nat (pool_size (w_pool w))) m' d'
              (use_llmlingua2 (w_pool w)) (ext w) = (ws, ok, e1) ∧
    r = (if ok then Ok tt else Raise ConstructionError) ∧
    pool (w_pool w') = ws ∧
    pool_size (w_pool w') = pool_size (w_pool w) ∧
    model_name (w_pool w') = m' ∧
    device_map (w_pool w') = d' ∧
    use_llmlingua2 (w_pool w') = use_llmlingua2 (w_pool w) ∧
    now w' = now (later k (with_pool (set_config m' d' (w_pool w)) w)) ∧
    ext w' = e1 ∧
    ((∀ gap s, racing gap s = s) →
     w_pool w' = mkPool (pool_size (w_pool w)) m' d' (use_llmlingua2 (w_pool w))
                        ws (seqZ 0 (Z.of_nat (length ws))) ∅).
Proof.
  unfold update_model. cbv zeta.
  set (w0 := with_pool _ w).
  destruct (drain fuel w0) as [w1|] eqn:Hd; [|done].
  apply drain_loop_result in Hd as (k & _ & -> & Hfree).
  destruct (after_sleeps_static k w0) as (Hp & Hs & Hm & Hd & Hu).
  destruct (after_sleeps_facts k w0) as (_ & _ & He).
  set (p0 := w_pool (later k w0)) in *.
  set (p3 := set_slots (pool _) (available _) ∅ _).
  assert (pool p3 = [] ∧ pool_size p3 = pool_size p0 ∧ model_name p3 = model_name p0 ∧
          device_map p3 = device_map p0 ∧ use_llmlingua2 p3 = use_llmlingua2 p0)
    as (Hp3 & Hs3 & Hm3 & Hd3 & Hu3).
  { unfold p3. simpl.
    destruct (disturb_static (racing 2%nat)
                (set_slots
                   (pool (disturb (racing 1%nat)
                            (set_slots [] (available (disturb (racing 0%nat) p0))
                                       (in_use (disturb (racing 0%nat) p0))
                                       (disturb (racing 0%nat) p0))))
                   []
                   (in_use (disturb (racing 1%nat)
                              (set_slots [] (available (disturb (racing 0%nat) p0))
                                         (in_use (disturb (racing 0%nat) p0))
                                         (disturb (racing 0%nat) p0))))
                   (disturb (racing 1%nat)
                      (set_slots [] (available (disturb (racing 0%nat) p0))
                                 (in_use (disturb (racing 0%nat) p0))
                                 (disturb (racing 0%nat) p0)))))
      as (-> & -> & -> & -> & ->). simpl.
    destruct (disturb_static (racing 1%nat)
                (set_slots [] (available (disturb (racing 0%nat) p0))
                           (in_use (disturb (racing 0%nat) p0))
                           (disturb (racing 0%nat) p0)))
      as (-> & -> & -> & -> & ->). simpl.
    by destruct (disturb_static (racing 0%nat) p0) as (_ & -> & -> & -> & ->). }
  pose proof (initialize_loop_shared_workers racing 3 (seqZ 0 (pool_size p3)) p3
                (ext (later k w0))) as Hloop.
  pose proof (initialize_loop_shared_alone racing 3 (seqZ 0 (pool_size p3)) p3
                (ext (later k w0))) as Halone.
  cbv zeta in Hloop.
  destruct (initialize_loop_shared _ _ _ _ _ _) as [[r0 p'] e'].
  rewrite length_seqZ, Hp3, Hs3, Hm3, Hd3, Hu3 in Hloop.
  rewrite Hs, Hm, Hd, Hu, He in Hloop. simpl in Hloop.
  destruct (construct _ _ _ _ _ (ext w)) as [[ws ok] e1] eqn:Hcon.
  simpl in Hloop. destruct Hloop as (-> & -> & Hpool & Hsize & Hmod & Hdev & Huse).
  intros [= <- <-]. exists k, ws, ok, e1. simpl.
  split_and!; try done.
  intros Hquiet. specialize (Halone Hquiet).
  assert (p3 = set_slots [] [] ∅ p0) as Hp3eq.
  { unfold p3. by rewrite !disturb_alone by apply Hquiet. }
  fold (_initialize_pool PromptCompressor p3 (ext (later k w0))) in Halone.
  rewrite Hp3eq, _initialize_pool_construct in Halone.
  simpl in Halone. rewrite Hs, Hm, Hd, Hu, He in Halone. simpl in Halone.
  rewrite Hcon in Halone. injection Halone as ->.
  unfold set_slots. simpl. by rewrite Hs, Hm, Hd, Hu.
Qed.

(** *** Completed calls *)

Lemma get_compressor_static fuel T w r w' :
  get_compressor others oversleep fuel T w = Some (r, w') →
  pool (w_pool w') = pool (w_pool w) ∧
  pool_size (w_pool w') = pool_size (w_pool w) ∧
  (consistent (w_pool w) → consistent (w_pool w')) ∧
  (∀ c i, r = Ok (c, i) → c ∈ pool (w_pool w)).
Proof.
  intros [k Hres]%get_compressor_result.
  destruct (after_sleeps_static k w) as (Hp & Hs & _).
  pose proof (after_sleeps_consistent k w) as Hck.
  destruct Hres as [[-> ->]|(p' & Hacq & ->)].
  - by split_and!.
  - split_and!.
    + apply acquire_locked_Some in Hacq as (i & rest & _ & -> & _). by simpl.
    + apply acquire_locked_Some in Hacq as (i & rest & _ & -> & _). by simpl.
    + intros Hc. by apply (acquire_locked_consistent _ _ _ (Hck Hc) Hacq).
    + intros c i ->.
      apply acquire_locked_Some in Hacq as (i' & rest & _ & _ & _ & Hidx).
      rewrite <- Hp. by eapply index_elem_of.
Qed.

Lemma run_call_preserves fuel c w r w' :
  undisturbed c →
  consistent (w_pool w) → full (w_pool w) →
  run_call PromptCompressor others oversleep fuel c w = Some (r, w') →
  r ≠ Raise ConstructionError →
  consistent (w_pool w') ∧ full (w_pool w') ∧
  pool_size (w_pool w') = pool_size (w_pool w).
Proof.
  intros Hquiet Hc Hf. unfold full in *. destruct c as [T|i| |m d racing]; simpl.
  - destruct (get_compressor _ _ _ _ _) as [[r0 w1]|] eqn:E; [|done].
    apply get_compressor_static in E as (Hp & Hs & Hc' & _).
    intros Hr _. assert (w1 = w') as <- by (by destruct r0 as [[??]|?]; simplify_eq).
    rewrite Hp, Hs. auto.
  - intros [= <- <-] _. simpl.
    destruct (run_step_static (w_pool w) (Give i)) as (Hp & Hs & _).
    simpl in Hp, Hs. rewrite Hp, Hs.
    split_and!; [by apply release_compressor_consistent|done|done].
  - intros [= <- <-] _. by simpl.
  - destruct (update_model _ _ _ _ _ _ _ _) as [[r0 w1]|] eqn:E; [|done].
    apply update_model_result in E
      as (k & ws & ok & e1 & Hcon & -> & _ & _ & _ & _ & _ & _ & _ & Hw1).
    specialize (Hw1 Hquiet).
    pose proof (construct_length (Z.to_nat (pool_size (w_pool w)))
                  (default (model_name (w_pool w)) m)
                  (default (device_map (w_pool w)) d)
                  (use_llmlingua2 (w_pool w)) (ext w)) as Hlen.
    rewrite Hcon in Hlen. destruct Hlen as [_ Hok].
    destruct ok; intros [= <- <-] Hr; [|done].
    rewrite Hw1. simpl. split_and!; [apply rebuilt_consistent| |done].
    rewrite (proj1 Hok) by done. lia.
Qed.

Lemma reachable_preserves (allowed : call → Prop) w0 w :
  (∀ c, allowed c → undisturbed c) →
  reachable PromptCompressor others oversleep allowed w0 w →
  consistent (w_pool w0) → full (w_pool w0) →
  consistent (w_pool w) ∧ full (w_pool w) ∧
  pool_size (w_pool w) = pool_size (w_pool w0).
Proof.
  intros Hallowed Hreach Hc Hf.
  induction Hreach as [|w fuel c r w' _ IH Hcall Hrun Hr]; [done|].
  destruct IH as (Hc' & Hf' & <-).
  by apply (run_call_preserves fuel c w r w'); [apply Hallowed|..].
Qed.

(** C2, as the code has it. Start from a pool that [__init__] has
    returned for a capacity that is not negative. After every completed
    call of [get_compressor], [release_compressor] or [get_status], and
    after every [update_model] that returns normally and during whose
    rebuild no other thread touches the pool, in any order and whatever the
    other threads do during the sleeps, [available] has no index twice,
    no index is both in [available] and in [in_use], the two together hold
    exactly the indices [0 .. pool_size - 1], and their sizes add up to
    [pool_size]. After [cleanup] both are empty, with [pool_size] as it
    was, so that their sizes add up to zero. *)
Theorem available_plus_in_use capacity m d u e p0 e' t n w :
  0 ≤ capacity →
  __init__ PromptCompressor capacity m d u e = (Ok p0, e') →
  reachable PromptCompressor others oversleep undisturbed (mkWorld p0 t n e') w →
  let p := w_pool w in
  (pool_size p = capacity ∧
   NoDup (available p) ∧
   (∀ i, i ∈ available p → i ∉ in_use p) ∧
   (∀ i, i ∈ available p ∨ i ∈ in_use p ↔ 0 ≤ i < pool_size p) ∧
   Z.of_nat (length (available p)) + Z.of_nat (size (in_use p)) = pool_size p) ∧
  (pool_size (cleanup p) = capacity ∧
   available (cleanup p) = [] ∧ in_use (cleanup p) = ∅ ∧
   Z.of_nat (length (available (cleanup p))) + Z.of_nat (size (in_use (cleanup p))) = 0).
Proof.
  intros Hsize Hinit Hreach. cbv zeta.
  apply init_returns in Hinit as (Hc0 & _ & Hf0 & Hs0 & _).
  apply reachable_preserves in Hreach as ([Hnd Hdis Hrange Hcount] & Hf & Hs);
    [|done|done|by apply Hf0].
  unfold full in Hf. simpl in Hs. rewrite Hs0 in Hs.
  split.
  - split_and!; [done|done|done| |lia].
    intros i. rewrite Hrange. by rewrite Hf.
  - by split_and!.
Qed.

Lemma reachable_same_workers w0 w :
  reachable PromptCompressor others oversleep not_update w0 w →
  pool (w_pool w) = pool (w_pool w0).
Proof.
  intros Hreach. induction Hreach as [|w fuel c r w' _ IH Hc Hrun _]; [done|].
  rewrite <- IH. destruct c as [T|i| |m d racing]; simpl in Hrun, Hc; [..|done].
  - destruct (get_compressor _ _ _ _ _) as [[r0 w1]|] eqn:E; [|done].
    apply get_compressor_static in E as (Hp & _).
    by destruct r0 as [[??]|?]; simplify_eq.
  - injection Hrun as _ <-. simpl.
    by destruct (run_step_static (w_pool w) (Give i)) as (Hp & _).
  - by injection Hrun as _ <-.
Qed.

Lemma update_model_drained fuel racing m d w k :
  let m' := default (model_name (w_pool w)) m in
  let d' := default (device_map (w_pool w)) d in
  let w0 := with_pool (set_config m' d' (w_pool w)) w in
  (∀ j, (j < k)%nat → in_use (w_pool (later j w0)) ≠ ∅) →
  in_use (w_pool (later k w0)) = ∅ →
  ((fuel ≤ k)%nat →
   update_model PromptCompressor others oversleep fuel racing m d w = None) ∧
  ((k < fuel)%nat →
   ∃ r w1,
     update_model PromptCompressor others oversleep fuel racing m d w = Some (r, w1) ∧
     update_model PromptCompressor others oversleep (S k) racing m d w = Some (r, w1) ∧
     now w1 = now (later k w0)).
Proof.
  intros m' d' w0 Hbusy Hfree.
  destruct (drain_loop_drains k w0 Hbusy Hfree) as [Hyes Hno].
  split; intros Hfuel.
  - unfold update_model. cbv zeta. fold m' d' w0. by rewrite Hno.
  - unfold update_model. cbv zeta. fold m' d' w0. rewrite !Hyes by lia.
    destruct (initialize_loop_shared _ _ _ _ _ _) as [[r p'] e']. by eexists _, _.
Qed.

(** C6. [update_model] stores the new model name and device (a [None]
    keeps the old one) and then polls [in_use] every 0.1 s: as long as the
    set is not empty the call does not return, and at the first poll that
    finds it empty the worker list is rebuilt, outside the lock. If the
    constructor returns for all [pool_size] workers, the call returns, and
    whatever the other threads have done to the index collections during
    the rebuild, the worker list then consists of exactly these
    [pool_size] workers, each built with the new configuration (when no
    thread interfered, all indices are available and none is in use). From
    then on, through any calls of [get_compressor], [release_compressor]
    and [get_status], every worker that [get_compressor] returns is one of
    them. *)
Theorem update_model_new_workers racing m d w k ws e1 :
  let m' := default (model_name (w_pool w)) m in
  let d' := default (device_map (w_pool w)) d in
  let u := use_llmlingua2 (w_pool w) in
  let w0 := with_pool (set_config m' d' (w_pool w)) w in
  (∀ j, (j < k)%nat → in_use (w_pool (later j w0)) ≠ ∅) →
  in_use (w_pool (later k w0)) = ∅ →
  construct PromptCompressor (Z.to_nat (pool_size (w_pool w))) m' d' u (ext w)
    = (ws, true, e1) →
  (∀ fuel, (fuel ≤ k)%nat →
     update_model PromptCompressor others oversleep fuel racing m d w = None) ∧
  ∃ w1,
    (∀ fuel, (k < fuel)%nat →
       update_model PromptCompressor others oversleep fuel racing m d w
       = Some (Ok tt, w1)) ∧
    now w1 = now (later k w0) ∧
    pool (w_pool w1) = ws ∧
    pool_size (w_pool w1) = pool_size (w_pool w) ∧
    model_name (w_pool w1) = m' ∧
    device_map (w_pool w1) = d' ∧
    use_llmlingua2 (w_pool w1) = u ∧
    length ws = Z.to_nat (pool_size (w_pool w)) ∧
    Forall (built_with PromptCompressor m' d' u) ws ∧
    ((∀ gap s, racing gap s = s) →
     w_pool w1 = mkPool (pool_size (w_pool w)) m' d' u
                        ws (seqZ 0 (Z.of_nat (length ws))) ∅) ∧
    (∀ w2 fuel T c i w3,
       reachable PromptCompressor others oversleep not_update w1 w2 →
       get_compressor others oversleep fuel T w2 = Some (Ok (c, i), w3) →
       c ∈ ws ∧ built_with PromptCompressor m' d' u c).
Proof.
  intros m' d' u w0 Hbusy Hfree Hcon.
  pose proof (construct_built (Z.to_nat (pool_size (w_pool w))) m' d' u (ext w))
    as Hbuilt.
  pose proof (construct_length (Z.to_nat (pool_size (w_pool w))) m' d' u (ext w))
    as Hlen.
  rewrite Hcon in Hbuilt, Hlen. simpl in Hbuilt. destruct Hlen as [_ Hlen].
  split.
  { intros fuel Hfuel.
    by apply (update_model_drained fuel racing m d w k Hbusy Hfree). }
  destruct (proj2 (update_model_drained (S k) racing m d w k Hbusy Hfree))
    as (r & w1 & Hrun & _ & Hnow); [lia|].
  exists w1.
  pose proof Hrun as Hres.
  apply update_model_result in Hres
    as (k' & ws' & ok & e1' & Hcon' & -> & Hpool & Hsize & Hmod & Hdev & Huse & _ & _ & Hw1).
  fold m' d' u in Hcon', Hw1, Hmod, Hdev, Huse. rewrite Hcon in Hcon'.
  injection Hcon' as <- <- <-.
  split_and!; try done.
  - intros fuel Hfuel.
    destruct (proj2 (update_model_drained fuel racing m d w k Hbusy Hfree))
      as (r' & w1' & -> & Hsame & _); [lia|]. by rewrite <- Hsame, Hrun.
  - by apply Hlen.
  - intros w2 fuel T c i w3 Hreach Hget.
    apply reachable_same_workers in Hreach. rewrite Hpool in Hreach.
    apply get_compressor_static in Hget as (_ & _ & _ & Hin).
    specialize (Hin c i eq_refl). rewrite Hreach in Hin.
    split; [done|]. by eapply Forall_forall in Hbuilt.
Qed.

(** ** Further properties of the pool *)

Lemma release_after_acquire p i rest :
  i ∉ in_use p → available p = rest ++ [i] →
  release_compressor i (set_slots (pool p) rest ({[i]} ∪ in_use p) p) = p.
Proof.
  intros Hi Hav.
  unfold release_compressor. simpl. rewrite decide_True by set_solver.
  unfold set_slots. simpl. rewrite <- Hav.
  replace (({[i]} ∪ in_use p) ∖ {[i]}) with (in_use p) by set_solver.
  by destruct p.
Qed.

(** X1. On a consistent pool, giving back the ticket that the critical
    section of [get_compressor] has just handed out restores the pool
    exactly: the same [available] list in the same order and the same
    [in_use] set. *)
Theorem acquire_then_release p c i p' :
  consistent p →
  acquire_locked p = Some (Ok (c, i), p') →
  release_compressor i p' = p.
Proof.
  intros Hc Hacq.
  apply acquire_locked_Some in Hacq as (j & rest & Hav & -> & -> & _).
  apply release_after_acquire; [|done].
  apply (cons_disjoint _ Hc). rewrite Hav. set_solver.
Qed.

(** X2. On a consistent pool, a ticket that is given back is the next one
    handed out: after [release_compressor i] the critical section of
    [get_compressor] returns the worker stored at [i] together with [i],
    and the pool is then what it was before the release. *)
Theorem release_then_acquire p i :
  consistent p →
  i ∈ in_use p →
  ∃ c, index (pool p) i = Some c ∧
       acquire_locked (release_compressor i p) = Some (Ok (c, i), p).
Proof.
  intros Hc Hi.
  destruct (consistent_index p i Hc) as [c Hidx]; [by right|].
  exists c. split; [done|].
  unfold release_compressor. rewrite decide_True by done.
  unfold acquire_locked. simpl. rewrite pop_snoc. simpl. rewrite Hidx.
  replace ({[i]} ∪ in_use p ∖ {[i]}) with (in_use p).
  - unfold set_slots. simpl. by destruct p.
  - apply set_eq. intros j. destruct (decide (j = i)) as [->|]; set_solver.
Qed.


(** A pool with nothing available and nothing in use stays that way
    whatever critical sections run on it. *)
Lemma run_steps_dead p tr :
  available p = [] → in_use p = ∅ → run_steps p tr = p.
Proof.
  intros Hav Hiu. induction tr as [|s tr IH]; [done|].
  change (run_steps p (s :: tr)) with (run_steps (run_step p s) tr).
  replace (run_step p s) with p; [done|].
  destruct s as [|i]; simpl.
  - by rewrite (proj2 (acquire_locked_None p) Hav).
  - rewrite release_compressor_absent; [done|]. rewrite Hiu. set_solver.
Qed.

Lemma get_compressor_dead T w :
  available (w_pool w) = [] → in_use (w_pool w) = ∅ →
  (∀ n, 0 <= oversleep n)%Q →
  ∃ n w', w_pool w' = w_pool w ∧ (T <= now w' - now w)%Q ∧
    ∀ fuel, (n ≤ fuel)%nat →
      get_compressor others oversleep fuel T w = Some (Raise PoolExhausted, w').
Proof.
  intros Hav Hiu Hov.
  assert (∀ k, w_pool (later k w) = w_pool w) as Hstay.
  { intros k. destruct (after_sleeps_facts k w) as (-> & _).
    by apply run_steps_dead. }
  set (n := Z.to_nat (Qceiling (T * 10))).
  destruct (get_compressor_loop_terminates n T (now w) w Hov) as [[r w'] Hrun].
  { pose proof (polls_enough T). fold n in H. lra. }
  pose proof Hrun as Hres.
  apply get_compressor_loop_result in Hres as (k & _ & _ & Hres).
  destruct Hres as [(-> & -> & Hend)|(_ & _ & p' & Hacq & _)].
  - exists n, (later k w). split_and!; [apply Hstay|done|].
    intros fuel Hfuel. unfold get_compressor.
    by apply (get_compressor_loop_more_fuel n).
  - rewrite Hstay in Hacq. by rewrite (proj2 (acquire_locked_None _) Hav) in Hacq.
Qed.

(** X4. [cleanup] leaves nothing to acquire: as long as the pool is not
    rebuilt by [update_model], [release_compressor] does nothing for any
    ticket, the pool stays empty whatever critical sections of
    [get_compressor] and [release_compressor] the other threads run, and a
    [get_compressor] ends with the pool-exhausted exception, never with a
    worker, once its timeout has elapsed. *)
Theorem cleanup_leaves_nothing_to_acquire p T w :
  (∀ n, 0 <= oversleep n)%Q →
  (∀ i, release_compressor i (cleanup p) = cleanup p) ∧
  (∀ tr, run_steps (cleanup p) tr = cleanup p) ∧
  ∃ n w', w_pool w' = cleanup p ∧
    (T <= now w' - now w)%Q ∧
    ∀ fuel, (n ≤ fuel)%nat →
      get_compressor others oversleep fuel T (with_pool (cleanup p) w)
      = Some (Raise PoolExhausted, w').
Proof.
  intros Hov. split_and!.
  - intros i. apply release_compressor_absent. simpl. set_solver.
  - intros tr. by apply run_steps_dead.
  - destruct (get_compressor_dead T (with_pool (cleanup p) w)) as (n & w' & ? & ? & ?);
      [done|done|done|].
    by exists n, w'.
Qed.

(** X5. A capacity of zero or less is accepted: [__init__] returns a pool
    without calling the constructor of a worker even once, and on that
    pool no [get_compressor] ever succeeds: each one ends with the
    pool-exhausted exception once its timeout has elapsed. *)
Theorem init_without_capacity capacity m d u e T t s :
  capacity ≤ 0 →
  (∀ n, 0 <= oversleep n)%Q →
  let p0 := mkPool capacity m d u [] [] ∅ in
  __init__ PromptCompressor capacity m d u e = (Ok p0, e) ∧
  ∃ n w', w_pool w' = p0 ∧
    ∀ fuel, (n ≤ fuel)%nat →
      get_compressor others oversleep fuel T (mkWorld p0 t s e)
      = Some (Raise PoolExhausted, w').
Proof.
  intros Hcap Hov p0. split.
  - unfold __init__, _initialize_pool. simpl. by rewrite seqZ_nil.
  - destruct (get_compressor_dead T (mkWorld p0 t s e)) as (n & w' & ? & _ & ?);
      [done|done|done|].
    by exists n, w'.
Qed.


Lemma init_shape capacity m d u e p0 e' :
  __init__ PromptCompressor capacity m d u e = (Ok p0, e') →
  ∃ ws, p0 = mkPool capacity m d u ws (seqZ 0 (Z.of_nat (length ws))) ∅ ∧
        length ws = Z.to_nat capacity.
Proof.
  unfold __init__. rewrite _initialize_pool_construct. simpl.
  pose proof (construct_length (Z.to_nat capacity) m d u e) as Hlen.
  destruct (construct _ _ _ _ _ e) as [[ws ok] e1].
  destruct Hlen as [_ Hok]. destruct ok; [|done]. intros [= <- <-].
  exists ws. split; [done|]. by apply Hok.
Qed.

Lemma takes_in_a_row k n p :
  available p = seqZ 0 (Z.of_nat n) → (k ≤ n)%nat →
  available (run_steps p (replicate k Take)) = seqZ 0 (Z.of_nat (n - k)).
Proof.
  revert n p. induction k as [|k IH]; intros n p Hav Hk.
  - simpl. by replace (n - 0)%nat with n by lia.
  - destruct n as [|n]; [lia|].
    change (run_steps p (replicate (S k) Take))
      with (run_steps (run_step p Take) (replicate k Take)).
    replace (S n - S k)%nat with (n - k)%nat by lia.
    apply IH; [|lia]. simpl.
    rewrite seqZ_S in Hav.
    destruct (acquire_locked p) as [[r p']|] eqn:Hacq.
    + apply acquire_locked_Some in Hacq as (i & rest & Hrest & -> & _).
      simpl. rewrite Hav in Hrest. by apply app_inj_tail in Hrest as [-> _].
    + apply acquire_locked_None in Hacq. rewrite Hacq in Hav.
      by destruct (seqZ 0 (Z.of_nat n)).
Qed.

(** X6. A pool fresh from [__init__] hands out exactly as many tickets as
    it has capacity when none is given back, highest index first: the
    [k]-th critical section of [get_compressor] in a row (counting from 0)
    returns index [capacity - 1 - k], and after [capacity] of them the
    list [available] is empty. *)
Theorem fresh_pool_tickets capacity m d u e p0 e' :
  __init__ PromptCompressor capacity m d u e = (Ok p0, e') →
  let n := Z.to_nat capacity in
  (∀ k, (k < n)%nat →
     ∃ c p', acquire_locked (run_steps p0 (replicate k Take))
             = Some (Ok (c, Z.of_nat (n - 1 - k)), p')) ∧
  acquire_locked (run_steps p0 (replicate n Take)) = None.
Proof.
  intros Hinit n. pose proof Hinit as Hshape.
  apply init_returns in Hinit as (Hc & _).
  apply init_shape in Hshape as (ws & -> & Hlen). fold n in Hlen.
  set (p0 := mkPool capacity m d u ws _ ∅) in *.
  assert (available p0 = seqZ 0 (Z.of_nat n)) as Hav0 by (simpl; by rewrite Hlen).
  split.
  - intros k Hk.
    pose proof (takes_in_a_row k n p0 Hav0 ltac:(lia)) as Hav.
    pose proof (run_steps_consistent (replicate k Take) _ Hc) as Hck.
    destruct (acquire_locked (run_steps _ (replicate k Take))) as [[r p']|] eqn:Hacq.
    + destruct (acquire_locked_consistent _ _ _ Hck Hacq) as (_ & c & i & -> & _).
      apply acquire_locked_Some in Hacq as (j & rest & Hrest & _ & -> & _).
      exists c, p'. do 3 f_equal.
      rewrite Hav in Hrest. replace (n - k)%nat with (S (n - 1 - k)) in Hrest by lia.
      rewrite seqZ_S in Hrest. apply app_inj_tail in Hrest as [_ <-].
      by rewrite Z.add_0_l.
    + apply acquire_locked_None in Hacq. rewrite Hacq in Hav.
      replace (n - k)%nat with (S (n - 1 - k)) in Hav by lia.
      rewrite seqZ_S in Hav. by destruct (seqZ 0 (Z.of_nat (n - 1 - k))).
  - apply acquire_locked_None.
    rewrite (takes_in_a_row n n p0 Hav0) by lia.
    by replace (n - n)%nat with 0%nat by lia.
Qed.

Lemma run_call_consistent fuel c w r w' :
  undisturbed c →
  consistent (w_pool w) →
  run_call PromptCompressor others oversleep fuel c w = Some (r, w') →
  consistent (w_pool w').
Proof.
  intros Hquiet Hc. destruct c as [T|i| |m d racing]; simpl.
  - destruct (get_compressor _ _ _ _ _) as [[r0 w1]|] eqn:E; [|done].
    apply get_compressor_static in E as (_ & _ & Hc' & _).
    intros Hr. assert (w1 = w') as <- by (by destruct r0 as [[??]|?]; simplify_eq).
    auto.
  - intros [= <- <-]. by apply release_compressor_consistent.
  - by intros [= <- <-].
  - destruct (update_model _ _ _ _ _ _ _ _) as [[r0 w1]|] eqn:E; [|done].
    apply update_model_result in E
      as (k & ws & ok & e1 & _ & _ & _ & _ & _ & _ & _ & _ & _ & Hw1).
    specialize (Hw1 Hquiet).
    intros Hr. assert (w1 = w') as <- by (by destruct r0; simplify_eq).
    rewrite Hw1. apply rebuilt_consistent.
Qed.

Lemma lifecycle_consistent (allowed : call → Prop) w0 w :
  (∀ c, allowed c → undisturbed c) →
  lifecycle PromptCompressor others oversleep allowed w0 w →
  consistent (w_pool w0) → consistent (w_pool w).
Proof.
  intros Hallowed Hlife Hc. induction Hlife as [|w fuel c r w' _ IH Hcall Hrun|w _ IH].
  - done.
  - by apply (run_call_consistent fuel c w r w'); [apply Hallowed|..].
  - simpl. exact (rebuilt_consistent [] _ _ _ _).
Qed.

(** X7. Whatever methods have been called on a pool since [__init__]
    returned it ([cleanup] included, and [update_model] also when its
    rebuild fails, as long as no other thread touches the pool during a
    rebuild), [get_compressor] never raises an index error: the only
    exception it can end with is the pool-exhausted one, and then its
    timeout has elapsed. *)
Theorem get_compressor_raises_only_exhausted capacity m d u e p0 e' t n w fuel T x w' :
  __init__ PromptCompressor capacity m d u e = (Ok p0, e') →
  lifecycle PromptCompressor others oversleep undisturbed (mkWorld p0 t n e') w →
  get_compressor others oversleep fuel T w = Some (Raise x, w') →
  x = PoolExhausted ∧ (T <= now w' - now w)%Q.
Proof.
  intros Hinit Hlife Hget.
  apply init_returns in Hinit as (Hc0 & _).
  pose proof (lifecycle_consistent undisturbed _ _ (λ c H, H) Hlife Hc0) as Hc.
  unfold get_compressor in Hget.
  apply get_compressor_loop_result in Hget as (k & _ & _ & Hres).
  destruct Hres as [([= ->] & -> & Hend)|(_ & _ & p' & Hacq & _)]; [done|].
  pose proof (after_sleeps_consistent k w Hc) as Hck.
  by destruct (acquire_locked_consistent _ _ _ Hck Hacq) as (_ & ? & ? & ? & _).
Qed.

(** X8. When the rebuild inside [update_model] fails, the call raises, and
    the pool is left degraded whatever the other threads did meanwhile:
    the new model name and device are already stored, the old workers are
    gone, and the worker list holds only the workers built before the
    failing call of the constructor, fewer than [pool_size]. When no other
    thread touched the pool during the rebuild, the indices of these
    workers are available and nothing is in use. *)
Theorem update_model_failed_rebuild racing m d w k ws e1 :
  let m' := default (model_name (w_pool w)) m in
  let d' := default (device_map (w_pool w)) d in
  let u := use_llmlingua2 (w_pool w) in
  let w0 := with_pool (set_config m' d' (w_pool w)) w in
  (∀ j, (j < k)%nat → in_use (w_pool (later j w0)) ≠ ∅) →
  in_use (w_pool (later k w0)) = ∅ →
  construct PromptCompressor (Z.to_nat (pool_size (w_pool w))) m' d' u (ext w)
    = (ws, false, e1) →
  ∃ w1,
    (∀ fuel, (k < fuel)%nat →
       update_model PromptCompressor others oversleep fuel racing m d w
       = Some (Raise ConstructionError, w1)) ∧
    pool (w_pool w1) = ws ∧
    (length ws < Z.to_nat (pool_size (w_pool w)))%nat ∧
    pool_size (w_pool w1) = pool_size (w_pool w) ∧
    model_name (w_pool w1) = m' ∧
    device_map (w_pool w1) = d' ∧
    ext w1 = e1 ∧
    ((∀ gap s, racing gap s = s) →
     w_pool w1 = mkPool (pool_size (w_pool w)) m' d' u
                        ws (seqZ 0 (Z.of_nat (length ws))) ∅).
Proof.
  intros m' d' u w0 Hbusy Hfree Hcon.
  pose proof (construct_length (Z.to_nat (pool_size (w_pool w))) m' d' u (ext w))
    as Hlen.
  rewrite Hcon in Hlen. destruct Hlen as [Hle Hok].
  destruct (proj2 (update_model_drained (S k) racing m d w k Hbusy Hfree))
    as (r & w1 & Hrun & _ & Hnow); [lia|].
  exists w1.
  pose proof Hrun as Hres.
  apply update_model_result in Hres
    as (k' & ws' & ok & e1' & Hcon' & -> & Hpool & Hsize & Hmod & Hdev & _ & _ & He & Hw1).
  fold m' d' u in Hcon', Hw1, Hmod, Hdev. rewrite Hcon in Hcon'.
  injection Hcon' as <- <- <-.
  split_and!; try done.
  - intros fuel Hfuel.
    destruct (proj2 (update_model_drained fuel racing m d w k Hbusy Hfree))
      as (r' & w1' & -> & Hsame & _); [lia|]. by rewrite <- Hsame, Hrun.
  - destruct (decide (length ws = Z.to_nat (pool_size (w_pool w)))) as [Heq|]; [|lia].
    by apply Hok in Heq.
Qed.

(** X9. [update_model] has no timeout: as long as every poll finds some
    index in use, the call does not return, however long it is given. *)
Theorem update_model_waits_forever racing m d w fuel :
  let m' := default (model_name (w_pool w)) m in
  let d' := default (device_map (w_pool w)) d in
  let w0 := with_pool (set_config m' d' (w_pool w)) w in
  (∀ j, in_use (w_pool (later j w0)) ≠ ∅) →
  update_model PromptCompressor others oversleep fuel racing m d w = None.
Proof.
  intros m' d' w0 Hbusy. unfold update_model. cbv zeta. fold m' d' w0.
  by rewrite drain_loop_blocked.
Qed.

(** ** The request handlers *)

Lemma get_compressor_returns T w :
  consistent (w_pool w) →
  (∀ n, 0 <= oversleep n)%Q →
  ∃ n r w',
    (∀ fuel, (n ≤ fuel)%nat →
             get_compressor others oversleep fuel T w = Some (r, w')) ∧
    ∃ k,
      (r = Raise PoolExhausted ∧ w' = later k w ∧ (T <= now w' - now w)%Q) ∨
      (∃ c i rest,
         r = Ok (c, i) ∧
         available (w_pool (later k w)) = rest ++ [i] ∧
         (i ∉ in_use (w_pool (later k w))) ∧
         w' = with_pool (set_slots (pool (w_pool (later k w))) rest
                                   ({[i]} ∪ in_use (w_pool (later k w)))
                                   (w_pool (later k w)))
                        (later k w)).
Proof.
  intros Hc Hov. set (n := Z.to_nat (Qceiling (T * 10))).
  destruct (get_compressor_loop_terminates n T (now w) w Hov) as [[r w'] Hrun].
  { pose proof (polls_enough T). fold n in H. lra. }
  exists n, r, w'. split.
  { intros fuel Hfuel. unfold get_compressor.
    by apply (get_compressor_loop_more_fuel n). }
  apply get_compressor_loop_result in Hrun as (k & _ & _ & Hres).
  exists k. destruct Hres as [(-> & -> & Hend)|(_ & _ & p' & Hacq & ->)]; [by left|right].
  pose proof (after_sleeps_consistent k w Hc) as Hck.
  destruct (acquire_locked_consistent _ _ _ Hck Hacq) as (_ & c & i & -> & Hi).
  apply acquire_locked_Some in Hacq as (i' & rest & Hav & -> & -> & _).
  by exists c, i', rest.
Qed.

Lemma undisturbed_later k w :
  (∀ n, others n = []) → w_pool (later k w) = w_pool w.
Proof.
  intros Hquiet. destruct (after_sleeps_facts k w) as (-> & _).
  generalize (sleeps w). induction k as [|k IH]; intros n; [done|].
  simpl. rewrite Hquiet. apply IH.
Qed.

Section Handlers.

Context {Obj Err : Type}.
Variable worker_compress_prompt :
  Worker → option (list string) → gmap string pyval → Ext → (gmap string Obj + Err) * Ext.
Variable str : @caught Err → string.
Variable isabs : string → bool.
Variable path_exists : string → bool.
Variable beside_app : string → string.

Abbreviation App := (@App Worker Ext).
Abbreviation handler :=
  (compress_prompt others oversleep worker_compress_prompt str).

Implicit Types (a : App) (request : CompressRequest).

(** X10. Every error that [compress_prompt] answers with has status 500
    and a detail that starts with "compress error: ". This includes the
    case where the pool has not been initialized: the 503 that the handler
    raises for it is caught by its own [except Exception] clause, so the
    client gets a 500 and the application is left as it was. *)
Theorem compress_prompt_errors_are_500 fuel request a :
  (compressor_pool a = None →
   handler fuel request a =
     Some (HTTPException 500
             (String.append "compress error: "
                (str (CaughtHTTP 503
                        "Connection pool not initialized, please try again later"))),
           a)) ∧
  (∀ status_code detail a',
     handler fuel request a = Some (HTTPException status_code detail, a') →
     status_code = 500 ∧ ∃ e, detail = String.append "compress error: " (str e)).
Proof.
  unfold compress_prompt. split.
  - by intros ->.
  - intros status_code detail a'.
    destruct (compressor_pool a) as [p|]; [|intros [= <- <- _]; eauto].
    destruct (get_compressor _ _ _ _ _) as [[[[c i]|x] w]|]; [| |done].
    + destruct (worker_compress_prompt _ _ _ _) as [[d|err] e'].
      * destruct (pick_results d) as [body|e]; [done|].
        intros [= <- <- _]. eauto.
      * intros [= <- <- _]. eauto.
    + intros [= <- <- _]. eauto.
Qed.

(** X11. On a consistent pool, and when no sleep is cut short,
    [compress_prompt] always answers, and it leaves a consistent pool
    behind. When no other thread touches the pool in the meantime the
    pool is afterwards exactly what it was before the request, whether
    the worker returned, raised, or returned a result with a key missing,
    and also when no worker was available: a ticket that was handed out
    has been given back. *)
Theorem compress_prompt_gives_ticket_back request a p :
  compressor_pool a = Some p →
  consistent p →
  (∀ n, 0 <= oversleep n)%Q →
  ∃ n resp a' p',
    (∀ fuel, (n ≤ fuel)%nat → handler fuel request a = Some (resp, a')) ∧
    compressor_pool a' = Some p' ∧
    consistent p' ∧
    ((∀ n, others n = []) → p' = p).
Proof.
  intros Hpool Hc Hov.
  set (w := mkWorld p (clock a) (naps a) (outside a)).
  destruct (get_compressor_returns 30 w Hc Hov) as (n & r & w' & Hget & k & Hres).
  pose proof (after_sleeps_consistent k w Hc) as Hck.
  destruct Hres as [(-> & -> & _)|(c & i & rest & -> & Hav & Hi & ->)].
  - exists n, (compress_error str (CaughtPool PoolExhausted)),
           (app_of (later k w)), (w_pool (later k w)).
    split_and!; [|done|done|].
    + intros fuel Hfuel. unfold compress_prompt. rewrite Hpool. fold w.
      by rewrite (Hget fuel Hfuel).
    + intros Hquiet. by rewrite undisturbed_later.
  - set (wk := later k w) in *.
    set (w' := with_pool _ wk) in *.
    destruct (worker_compress_prompt c (prompts request)
                (build_compression_params request) (ext w')) as [result e'] eqn:Hwork.
    set (a' := mkApp (Some (release_compressor i (w_pool w')))
                     (now w') (sleeps w') e').
    assert (release_compressor i (w_pool w') = w_pool wk) as Hback
      by (by apply release_after_acquire).
    exists n,
      (match result with
       | inr err => compress_error str (CaughtWorker err)
       | inl d => match pick_results d with
                  | inl body => Body body
                  | inr e => compress_error str e
                  end
       end), a', (w_pool wk).
    split_and!; [|by rewrite <- Hback|done|].
    + intros fuel Hfuel. unfold compress_prompt. rewrite Hpool. fold w.
      rewrite (Hget fuel Hfuel). cbv zeta. rewrite Hwork. fold a'.
      destruct result as [d|err]; [|done]. by destruct (pick_results d).
    + intros Hquiet. unfold wk. by rewrite undisturbed_later.
Qed.

(** X12. Every body that [compress_prompt] answers with comes from a
    worker that the pool handed out: the worker was called with the
    prompts of the request and with the parameters that
    [build_compression_params] accepts, its result had the keys
    compressed_prompt_list, origin_tokens, compressed_tokens and rate,
    and the body binds prompts, original_tokens, compressed_tokens and
    rate to these four values and has no other key. The ticket has been
    given back when the answer is returned. *)
Theorem compress_prompt_body fuel request a body a' :
  handler fuel request a = Some (Body body, a') →
  ∃ p c i w d e',
    compressor_pool a = Some p ∧
    get_compressor others oversleep fuel 30
                   (mkWorld p (clock a) (naps a) (outside a)) = Some (Ok (c, i), w) ∧
    worker_compress_prompt c (prompts request)
                           (build_compression_params request) (ext w) = (inl d, e') ∧
    is_Some (d !! "compressed_prompt_list") ∧
    body !! "prompts" = d !! "compressed_prompt_list" ∧
    body !! "original_tokens" = d !! "origin_tokens" ∧
    body !! "compressed_tokens" = d !! "compressed_tokens" ∧
    body !! "rate" = d !! "rate" ∧
    dom body = {["prompts"; "original_tokens"; "compressed_tokens"; "rate"]} ∧
    a' = mkApp (Some (release_compressor i (w_pool w))) (now w) (sleeps w) e'.
Proof.
  unfold compress_prompt.
  destruct (compressor_pool a) as [p|]; [|done].
  destruct (get_compressor _ _ _ _ _) as [[[[c i]|x] w]|] eqn:Hget; [|done|done].
  destruct (worker_compress_prompt _ _ _ _) as [[d|err] e'] eqn:Hwork; [|done].
  destruct (pick_results d) as [body'|e] eqn:Hpick; [|done].
  intros [= <- <-]. exists p, c, i, w, d, e'.
  unfold pick_results in Hpick.
  destruct (d !! "compressed_prompt_list") as [v1|] eqn:H1; [|done].
  destruct (d !! "origin_tokens") as [v2|] eqn:H2; [|done].
  destruct (d !! "compressed_tokens") as [v3|] eqn:H3; [|done].
  destruct (d !! "rate") as [v4|] eqn:H4; [|done].
  injection Hpick as <-.
  by split_and!.
Qed.

(** X13. After the shutdown part of [lifespan] no request is served any
    more: whatever the other threads do, [compress_prompt] answers with a
    500, for an uninitialized pool at once and otherwise after waiting
    out the 30 seconds of [get_compressor], and no worker is called (the
    world outside is left as it was). *)
Theorem compress_prompt_after_shutdown request a :
  (∀ n, 0 <= oversleep n)%Q →
  ∃ n e a',
    (∀ fuel, (n ≤ fuel)%nat →
       handler fuel request (shutdown a) = Some (compress_error str e, a')) ∧
    outside a' = outside a ∧
    compressor_pool a' = compressor_pool (shutdown a) ∧
    ((compressor_pool a = None ∧ clock a' = clock a ∧
      e = CaughtHTTP 503 "Connection pool not initialized, please try again later") ∨
     (compressor_pool a ≠ None ∧ (30 <= clock a' - clock a)%Q ∧
      e = CaughtPool PoolExhausted)).
Proof.
  intros Hov. unfold shutdown.
  destruct (compressor_pool a) as [p|] eqn:Hpool.
  - set (w := mkWorld (cleanup p) (clock a) (naps a) (outside a)).
    destruct (get_compressor_dead 30 w) as (n & w' & Hp & Hlate & Hget);
      [done|done|done|].
    exists n, (CaughtPool PoolExhausted), (app_of w').
    split_and!.
    + intros fuel Hfuel. unfold compress_prompt. simpl. fold w.
      by rewrite (Hget fuel Hfuel).
    + simpl. specialize (Hget n ltac:(lia)).
      apply get_compressor_result in Hget as [k [[_ ->]|(p' & Hacq & _)]].
      * by destruct (after_sleeps_facts k w) as (_ & _ & ->).
      * exfalso. destruct (after_sleeps_facts k w) as (Hk & _).
        rewrite Hk, run_steps_dead in Hacq by done.
        by rewrite (proj2 (acquire_locked_None _)) in Hacq.
    + simpl. by rewrite Hp.
    + right. by split_and!.
  - exists 0%nat, (CaughtHTTP 503 "Connection pool not initialized, please try again later"), a.
    split_and!; [|done|done|by left].
    intros fuel _. unfold compress_prompt. by rewrite Hpool.
Qed.

(** X14. [initialize_compressor_pool] either raises what the constructor
    of a worker raised and leaves the global as it was, or installs a
    consistent pool of the configured size with nothing in use, whose
    workers were all built with the configured device and with one model
    name: the path next to the application when the configured path is
    not empty and exists, and the remote model otherwise. *)
Theorem initialize_compressor_pool_result config a r a' :
  initialize_compressor_pool PromptCompressor isabs path_exists beside_app config a
    = (r, a') →
  (r = Raise ConstructionError ∧ compressor_pool a' = compressor_pool a) ∨
  (r = Ok tt ∧
   ∃ p, compressor_pool a' = Some p ∧
        consistent p ∧ in_use p = ∅ ∧
        pool_size p = config_pool_size config ∧
        length (pool p) = Z.to_nat (config_pool_size config) ∧
        device_map p = default_device_map config ∧
        Forall (built_with PromptCompressor (model_name p) (device_map p)
                           (config_use_llmlingua2 config)) (pool p) ∧
        ((model_name p = remote_model ∧
          check_model_path isabs path_exists beside_app (default_model_path config) = false) ∨
         (∃ q, default_model_path config = Some q ∧ q ≠ "" ∧
               model_name p = beside_app q ∧
               path_exists (if isabs q then q else beside_app q) = true))).
Proof.
  unfold initialize_compressor_pool. cbv zeta.
  set (model_to_use := if check_model_path _ _ _ _ then _ else _).
  destruct (__init__ _ _ _ _ _ _) as [[p|x] e'] eqn:Hinit.
  - intros [= <- <-]. right. split; [done|]. exists p.
    pose proof Hinit as Hshape. apply init_shape in Hshape as (ws & Hp & Hlen).
    apply init_returns in Hinit as (Hc & Hiu & _ & Hs & Hm & Hd & Hu & Hb).
    rewrite Hm, Hd. split_and!; try done.
    + rewrite Hp. done.
    + unfold model_to_use, check_model_path.
      destruct (default_model_path config) as [q|]; [|by left].
      case_bool_decide as Hq; [by left|].
      destruct (path_exists _) eqn:Hex; [right|by left].
      exists q. by split_and!.
  - intros [= <- <-]. left. split; [|done].
    unfold __init__ in Hinit. rewrite _initialize_pool_construct in Hinit.
    simpl in Hinit. destruct (construct _ _ _ _ _ _) as [[ws ok] e1].
    destruct ok; [done|]. by injection Hinit as <- _.
Qed.

(** X15. Once a pool of a capacity that is not negative has been built,
    [health_check] reports "healthy" after any completed calls of
    [get_compressor], [release_compressor], [get_status] and
    [update_model] (no other thread touching the pool during a rebuild),
    with the configured capacity and with counts of available and in-use
    instances that add up to it, and it leaves the application as it is.
    After the shutdown part of [lifespan] it still reports "healthy", with
    the same capacity and with both counts at zero. *)
Theorem health_check_counts capacity m d u e p0 e' t n w :
  0 ≤ capacity →
  __init__ PromptCompressor capacity m d u e = (Ok p0, e') →
  reachable PromptCompressor others oversleep undisturbed (mkWorld p0 t n e') w →
  (∃ pool_status x y,
     health_check (app_of w) = ("healthy", Some pool_status, app_of w) ∧
     pool_status !! "pool_size" = Some (VInt capacity) ∧
     pool_status !! "available" = Some (VInt x) ∧
     pool_status !! "in_use" = Some (VInt y) ∧
     0 ≤ x ∧ 0 ≤ y ∧ x + y = capacity) ∧
  (∃ pool_status,
     health_check (shutdown (app_of w))
       = ("healthy", Some pool_status, shutdown (app_of w)) ∧
     pool_status !! "pool_size" = Some (VInt capacity) ∧
     pool_status !! "available" = Some (VInt 0) ∧
     pool_status !! "in_use" = Some (VInt 0)).
Proof.
  intros Hcap Hinit Hreach.
  apply init_returns in Hinit as (Hc0 & _ & Hf0 & Hs0 & _).
  apply reachable_preserves in Hreach as ([_ _ _ Hcount] & Hf & Hs);
    [|done|done|by apply Hf0].
  unfold full in Hf. simpl in Hs. rewrite Hs0 in Hs.
  split.
  - exists (get_status (w_pool w)).1,
           (Z.of_nat (length (available (w_pool w)))),
           (Z.of_nat (size (in_use (w_pool w)))).
    split_and!; try done; try lia.
    unfold get_status. simpl. by rewrite Hs.
  - exists (get_status (cleanup (w_pool w))).1.
    split_and!; try done.
    unfold get_status. simpl. by rewrite Hs.
Qed.

End Handlers.

End Properties.

(** ** Examples *)

(** C3 as stated fails: with a constructor that returns once and then
    raises, initialization of a pool of size 2 raises and leaves one worker
    in [pool] and index 0 in [available]. *)
Lemma _initialize_pool_partial_pool :
  let r := _initialize_pool Demo.flaky (Demo.fresh 2) 0%nat in
  r.1.1 = Raise ConstructionError ∧
  ¬ (pool r.1.2 = [] ∧ available r.1.2 = []).
Proof.
  cbv zeta. split; [reflexivity|].
  intros [H _]. vm_compute in H. discriminate H.
Qed.

Lemma quiet_during n k : during Demo.quiet n k = [].
Proof. revert n. induction k as [|k IH]; intros n; [done|]. apply IH. Qed.

Lemma quiet_later {Worker Ext} oversleep k (w : @World Worker Ext) :
  w_pool (after_sleeps Demo.quiet oversleep k w) = w_pool w.
Proof.
  destruct (after_sleeps_facts Demo.quiet oversleep k w) as (-> & _).
  by rewrite quiet_during.
Qed.

Example init_started :
  __init__ Demo.reliable 2 "model" "cpu" true 0%nat = (Ok Demo.started, 2%nat).
Proof. reflexivity. Qed.

(** The last index appended is the first one handed out. *)
Example get_compressor_started :
  get_compressor Demo.quiet Demo.punctual 1 30 (Demo.at_start Demo.started 2) =
  Some (Ok (Demo.built, 1),
        Demo.at_start (mkPool 2 "model" "cpu" true [Demo.built; Demo.built] [0] {[1]}) 2).
Proof. vm_compute. reflexivity. Qed.

(** A quarter of a second on a pool with nothing available: three polls,
    at 0, 0.1 and 0.2 s, and the exception at 0.3 s; two rounds of the
    loop are not enough to get there. *)
Example get_compressor_busy :
  (∃ w, get_compressor Demo.quiet Demo.punctual 3 (1 # 4) (Demo.at_start Demo.busy 1)
        = Some (Raise PoolExhausted, w) ∧ (now w == 3 # 10)%Q ∧ sleeps w = 3%nat) ∧
  get_compressor Demo.quiet Demo.punctual 2 (1 # 4) (Demo.at_start Demo.busy 1) = None.
Proof.
  split; [|by vm_compute]. eexists. split; [by vm_compute|]. by vm_compute.
Qed.

(** Another thread gives slot 0 back during the second sleep. *)
Example get_compressor_after_release :
  ∃ w, get_compressor (λ n, if (n =? 1)%nat then [Give 0] else []) Demo.punctual
                      5 1 (Demo.at_start Demo.busy 1)
       = Some (Ok (Demo.built, 0), w) ∧
       (now w == 2 # 10)%Q ∧ available (w_pool w) = [] ∧ in_use (w_pool w) = {[0]}.
Proof. eexists. split; [by vm_compute|]. by vm_compute. Qed.

(** Capacity 2: two calls get the tickets 1 and 0, a third one times out
    after one second, and once ticket 1 is back a fourth call gets it. *)
Example two_slots :
  let get := get_compressor Demo.quiet Demo.punctual 20 in
  ∃ w1 w2 w3 w4,
    get 5%Q (Demo.at_start Demo.started 2) = Some (Ok (Demo.built, 1), w1) ∧
    get 5%Q w1 = Some (Ok (Demo.built, 0), w2) ∧
    get 1%Q w2 = Some (Raise PoolExhausted, w3) ∧
    (now w3 - now w2 == 1)%Q ∧ w_pool w3 = w_pool w2 ∧
    get 1%Q (with_pool (release_compressor 1 (w_pool w3)) w3)
      = Some (Ok (Demo.built, 1), w4) ∧
    now w4 = now w3.
Proof.
  cbv zeta. do 4 eexists.
  split; [by vm_compute|]. split; [by vm_compute|]. split; [by vm_compute|].
  split; [by vm_compute|]. split; [by vm_compute|]. split; by vm_compute.
Qed.

(** [update_model] on an idle pool rebuilds it at once; it never returns
    while slot 0 stays in use. *)
Example update_model_idle :
  update_model Demo.reliable Demo.quiet Demo.punctual 1 Demo.alone (Some "model-b") None
               (Demo.at_start Demo.started 2) =
  Some (Ok tt,
        Demo.at_start
          (mkPool 2 "model-b" "cpu" true
                  [("model-b", "cpu", true); ("model-b", "cpu", true)] [0; 1] ∅) 4).
Proof. by vm_compute. Qed.

Example update_model_busy fuel :
  update_model Demo.reliable Demo.quiet Demo.punctual fuel Demo.alone None (Some "cuda")
               (Demo.at_start Demo.busy 1) = None.
Proof.
  unfold update_model. cbv zeta. rewrite drain_loop_blocked; [done|].
  intros j. rewrite quiet_later. simpl. apply non_empty_singleton_L.
Qed.

(** The rebuild is not protected by the lock. A thread that takes ticket 1
    after the last poll and gives it back between [self.available.clear()]
    and [self.in_use.clear()] leaves index 1 twice in [available] once
    [update_model] has returned; if the constructor then fails at its
    first call, [available] is [[1]] over an empty worker list and the next
    [get_compressor] raises an index error. *)
Example update_model_raced :
  ∃ w, update_model Demo.reliable Demo.quiet Demo.punctual 1 Demo.meddling None None
                    (Demo.at_start Demo.started 2) = Some (Ok tt, w) ∧
       available (w_pool w) = [1; 0; 1] ∧ in_use (w_pool w) = ∅ ∧
       pool_size (w_pool w) = 2.
Proof. eexists. split; [by vm_compute|]. by vm_compute. Qed.

Example update_model_raced_and_failed :
  ∃ w w', update_model (λ _ _ _ calls, (None, S calls)) Demo.quiet Demo.punctual
                       1 Demo.meddling None None (Demo.at_start Demo.started 2)
          = Some (Raise ConstructionError, w) ∧
          pool (w_pool w) = [] ∧ available (w_pool w) = [1] ∧
          get_compressor Demo.quiet Demo.punctual 1 30 w = Some (Raise IndexError, w').
Proof. do 2 eexists. split; [by vm_compute|]. by vm_compute. Qed.

Example build_compression_params_request :
  build_compression_params Demo.request =
  <["rate" := VFloat (Finite (1 # 2))]>
    (<["target_context_level_rate" := VFloat PosInf]>
       (<["context_level_target_token" := VInt 300]> ∅)).
Proof. by vm_compute. Qed.

(** ** Instances of the theorems *)

Lemma started_consistent : consistent Demo.started.
Proof. exact (rebuilt_consistent [Demo.built; Demo.built] 2 "model" "cpu" true). Qed.

Lemma four_consistent : consistent Demo.four.
Proof.
  change Demo.four with
    (run_step (mkPool 4 "model" "cpu" true
                 [Demo.built; Demo.built; Demo.built; Demo.built]
                 (seqZ 0 4) ∅) Take).
  apply run_step_consistent.
  exact (rebuilt_consistent [Demo.built; Demo.built; Demo.built; Demo.built]
           4 "model" "cpu" true).
Qed.

Lemma no_index_held_twice_witness :
  __init__ Demo.reliable 2 "model" "cpu" true 0%nat = (Ok Demo.started, 2%nat) ∧
  let tr := [Take; Take; Give 1; Take] in
  let p := run_steps Demo.started tr in
  let h := holders Demo.started [] tr in
  NoDup h ∧
  (∀ i, i ∈ h ↔ i ∈ in_use p) ∧
  (∀ c i p', acquire_locked p = Some (Ok (c, i), p') → i ∉ h).
Proof.
  split; [reflexivity|].
  apply (no_index_held_twice Demo.reliable 2 "model" "cpu" true 0%nat
           Demo.started 2%nat).
  reflexivity.
Defined.

Lemma available_plus_in_use_witness :
  let w0 := Demo.at_start Demo.started 2 in
  let w := Demo.at_start
             (mkPool 2 "model-b" "cpu" true
                     [("model-b", "cpu", true); ("model-b", "cpu", true)] [0; 1] ∅) 4 in
  0 ≤ 2 ∧
  __init__ Demo.reliable 2 "model" "cpu" true 0%nat = (Ok Demo.started, 2%nat) ∧
  reachable Demo.reliable Demo.quiet Demo.punctual undisturbed w0 w ∧
  pool_size (w_pool w) = 2 ∧
  Z.of_nat (length (available (w_pool w))) + Z.of_nat (size (in_use (w_pool w))) = 2.
Proof.
  cbv zeta.
  assert (reachable Demo.reliable Demo.quiet Demo.punctual undisturbed
            (Demo.at_start Demo.started 2)
            (Demo.at_start
               (mkPool 2 "model-b" "cpu" true
                       [("model-b", "cpu", true); ("model-b", "cpu", true)] [0; 1] ∅) 4))
    as Hreach.
  { set (w1 := Demo.at_start (mkPool 2 "model" "cpu" true
                                [Demo.built; Demo.built] [0] {[1]}) 2).
    apply (reach_call _ _ _ _ _ (Demo.at_start Demo.started 2) 1%nat
             (CallUpdate (Some "model-b") None Demo.alone) (Ok RetNone));
      [|intros gap s; reflexivity|reflexivity|discriminate].
    apply (reach_call _ _ _ _ _ w1 0%nat (CallRelease 1) (Ok RetNone));
      [|exact I|reflexivity|discriminate].
    apply (reach_call _ _ _ _ _ w1 0%nat CallStatus
             (Ok (RetStatus (get_status (w_pool w1)).1)));
      [|exact I|reflexivity|discriminate].
    apply (reach_call _ _ _ _ _ (Demo.at_start Demo.started 2) 1%nat (CallGet 30)
             (Ok (RetCompressor Demo.built 1)));
      [|exact I|reflexivity|discriminate].
    apply reach_here. }
  split; [lia|]. split; [reflexivity|]. split; [exact Hreach|].
  pose proof (proj1 (available_plus_in_use Demo.reliable Demo.quiet Demo.punctual
                2 "model" "cpu" true 0%nat Demo.started 2%nat 0%Q 0%nat _
                ltac:(lia) eq_refl Hreach)) as H.
  split; [apply H|apply H].
Defined.

(** C2 as stated fails: [cleanup] is a pool operation, and after it, on a
    consistent pool of capacity 4 with one index in use, the number of
    available indices plus the number of indices in use is 0, not 4. *)
Lemma cleanup_breaks_the_count :
  let p := cleanup Demo.four in
  consistent Demo.four ∧ pool_size p = 4 ∧
  ¬ (Z.of_nat (length (available p)) + Z.of_nat (size (in_use p)) = pool_size p).
Proof.
  cbv zeta. split; [exact four_consistent|]. split; [reflexivity|].
  vm_compute. discriminate.
Qed.

Lemma get_compressor_outcome_witness :
  let w := Demo.at_start Demo.started 2 in
  consistent (w_pool w) ∧
  (∀ n, 0 <= Demo.punctual n)%Q ∧
  ∃ n r w',
    ∀ fuel, (n ≤ fuel)%nat →
            get_compressor Demo.quiet Demo.punctual fuel 30 w = Some (r, w').
Proof.
  cbv zeta. split; [exact started_consistent|].
  split; [intros n; discriminate|].
  destruct (get_compressor_outcome Demo.quiet Demo.punctual 30
              (Demo.at_start Demo.started 2) started_consistent
              (λ n, ltac:(discriminate))) as (n & r & w' & H & _).
  exists n, r, w'. exact H.
Defined.

Lemma release_compressor_noop_witness :
  (5 ∉ in_use Demo.started) ∧ release_compressor 5 Demo.started = Demo.started.
Proof.
  split; [apply not_elem_of_empty|].
  apply (proj1 (release_compressor_noop 5 Demo.started)). apply not_elem_of_empty.
Defined.

Lemma update_model_new_workers_witness :
  let w := Demo.at_start Demo.busy 1 in
  let w0 := with_pool (set_config "model-b" "cpu" (w_pool w)) w in
  let ws := [("model-b", "cpu", true)] in
  (∀ j, (j < 1)%nat →
        in_use (w_pool (after_sleeps Demo.returning Demo.punctual j w0)) ≠ ∅) ∧
  in_use (w_pool (after_sleeps Demo.returning Demo.punctual 1 w0)) = ∅ ∧
  construct Demo.reliable 1 "model-b" "cpu" true 1%nat = (ws, true, 2%nat) ∧
  update_model Demo.reliable Demo.returning Demo.punctual 1 Demo.meddling
               (Some "model-b") None w = None ∧
  ∃ w1, update_model Demo.reliable Demo.returning Demo.punctual 2 Demo.meddling
                     (Some "model-b") None w = Some (Ok tt, w1) ∧
        pool (w_pool w1) = ws.
Proof.
  cbv zeta.
  assert (∀ j, (j < 1)%nat →
            in_use (w_pool (after_sleeps Demo.returning Demo.punctual j
                      (with_pool (set_config "model-b" "cpu"
                                    (w_pool (Demo.at_start Demo.busy 1)))
                                 (Demo.at_start Demo.busy 1)))) ≠ ∅) as Hbusy.
  { intros j Hj. replace j with 0%nat by lia. simpl. apply non_empty_singleton_L. }
  split; [exact Hbusy|]. split; [reflexivity|]. split; [reflexivity|].
  destruct (update_model_new_workers Demo.reliable Demo.returning Demo.punctual
              Demo.meddling (Some "model-b") None (Demo.at_start Demo.busy 1) 1%nat
              [("model-b", "cpu", true)] 2%nat Hbusy eq_refl eq_refl)
    as (Hblocked & w1 & Hreturns & _ & Hpool & _).
  split; [apply Hblocked; lia|].
  exists w1. split; [apply Hreturns; lia|exact Hpool].
Defined.

Lemma get_status_snapshot_witness :
  consistent Demo.four ∧ full Demo.four ∧ pool_size Demo.four = 4 ∧
  size (in_use Demo.four) = 1%nat ∧
  (get_status Demo.four).1 !! "pool_size" = Some (VInt 4) ∧
  (get_status Demo.four).1 !! "available" = Some (VInt 3) ∧
  (get_status Demo.four).1 !! "in_use" = Some (VInt 1).
Proof.
  split; [exact four_consistent|]. split; [reflexivity|].
  split; [reflexivity|]. split; [reflexivity|].
  apply (get_status_snapshot Demo.four);
    [exact four_consistent|reflexivity|reflexivity|reflexivity].
Defined.



Lemma get_compressor_timeout_nonpositive_witness :
  (0 <= 0)%Q ∧
  available Demo.started = [0; 1] ∧
  get_compressor Demo.quiet Demo.punctual 0 0 (Demo.at_start Demo.started 2) =
    Some (Raise PoolExhausted, Demo.at_start Demo.started 2).
Proof.
  split; [discriminate|]. split; [reflexivity|].
  apply (get_compressor_timeout_nonpositive Demo.quiet Demo.punctual 0 0
           (Demo.at_start Demo.started 2)).
  discriminate.
Defined.

Lemma build_compression_params_keys_witness :
  build_compression_params Demo.request !! "rate" = Some (VFloat (Finite (1 # 2))) ∧
  build_compression_params Demo.request !! "target_token" = None ∧
  "rate" ∈ ["rate"; "target_token"; "target_context_level_rate";
            "context_level_rate"; "context_level_target_token";
            "chunk_end_tokens"].
Proof.
  destruct (build_compression_params_keys Demo.request)
    as (Hrate & _ & _ & _ & _ & _ & Hkeys).
  split; [|split].
  - apply Hrate. exists (Finite (1 # 2)). split; [reflexivity|].
    split; [|reflexivity]. exists (1 # 2). split; [reflexivity|].
    split; [reflexivity|discriminate].
  - reflexivity.
  - apply Hkeys. exists (VFloat (Finite (1 # 2))). reflexivity.
Defined.

(** A worker that raises, and one whose result lacks the key rate: both
    requests are answered with a 500 and the pool is as before. *)
Example compress_prompt_worker_raises :
  compress_prompt Demo.quiet Demo.punctual
                  (λ _ _ _ calls, (inr "out of memory", calls)) Demo.str_caught
                  1 Demo.request Demo.serving =
  Some (HTTPException (Obj := string) 500 "compress error: out of memory", Demo.serving).
Proof. by vm_compute. Qed.

Example compress_prompt_key_missing :
  compress_prompt Demo.quiet Demo.punctual
                  (λ _ _ _ calls,
                     (inl (<["compressed_prompt_list" := "short"]>
                           (<["origin_tokens" := "10"]>
                           (<["compressed_tokens" := "5"]> ∅))), calls))
                  Demo.str_caught 1 Demo.request Demo.serving =
  Some (HTTPException 500 "compress error: rate", Demo.serving).
Proof. by vm_compute. Qed.

(** With a configured path that exists next to the application, the pool
    is built from that path. *)
Example initialize_local_model :
  (initialize_compressor_pool Demo.reliable Demo.relative (λ _, true) Demo.beside
                              Demo.config Demo.starting).2 =
  mkApp (Some (mkPool 2 "/srv/app/./models/local" "cuda" true
                 [("/srv/app/./models/local", "cuda", true);
                  ("/srv/app/./models/local", "cuda", true)] [0; 1] ∅))
        0%Q 0%nat 2%nat.
Proof. by vm_compute. Qed.

(** ** Instances of the further properties *)

Lemma punctual_nonneg : ∀ n, (0 <= Demo.punctual n)%Q.
Proof. intros n. discriminate. Qed.

Lemma acquire_then_release_witness :
  consistent Demo.started ∧
  acquire_locked Demo.started =
    Some (Ok (Demo.built, 1),
          mkPool 2 "model" "cpu" true [Demo.built; Demo.built] [0] {[1]}) ∧
  release_compressor 1
    (mkPool 2 "model" "cpu" true [Demo.built; Demo.built] [0] {[1]}) = Demo.started.
Proof.
  split; [exact started_consistent|]. split; [reflexivity|].
  apply (acquire_then_release Demo.started Demo.built 1);
    [exact started_consistent|reflexivity].
Defined.

Lemma release_then_acquire_witness :
  consistent Demo.four ∧ 3 ∈ in_use Demo.four ∧
  ∃ c, index (pool Demo.four) 3 = Some c ∧
       acquire_locked (release_compressor 3 Demo.four) = Some (Ok (c, 3), Demo.four).
Proof.
  split; [exact four_consistent|]. split; [by apply elem_of_singleton|].
  apply (release_then_acquire Demo.four 3);
    [exact four_consistent|by apply elem_of_singleton].
Defined.


Lemma cleanup_leaves_nothing_to_acquire_witness :
  (∀ n, 0 <= Demo.punctual n)%Q ∧
  release_compressor 1 (cleanup Demo.four) = cleanup Demo.four ∧
  run_steps (cleanup Demo.four) [Take; Give 3; Take] = cleanup Demo.four.
Proof.
  split; [exact punctual_nonneg|].
  destruct (cleanup_leaves_nothing_to_acquire Demo.quiet Demo.punctual Demo.four 30
              (Demo.at_start Demo.four 4) punctual_nonneg) as (Hrel & Hsteps & _).
  split; [apply Hrel|apply Hsteps].
Defined.

Lemma init_without_capacity_witness :
  0 ≤ 0 ∧ (∀ n, 0 <= Demo.punctual n)%Q ∧
  __init__ Demo.flaky 0 "model" "cpu" true 1%nat = (Ok (Demo.fresh 0), 1%nat).
Proof.
  split; [lia|]. split; [exact punctual_nonneg|].
  apply (init_without_capacity Demo.flaky Demo.quiet Demo.punctual
           0 "model" "cpu" true 1%nat 30 0%Q 0%nat);
    [lia|exact punctual_nonneg].
Defined.

Lemma fresh_pool_tickets_witness :
  __init__ Demo.reliable 2 "model" "cpu" true 0%nat = (Ok Demo.started, 2%nat) ∧
  (∃ c p', acquire_locked (run_steps Demo.started [Take]) = Some (Ok (c, 0), p')) ∧
  acquire_locked (run_steps Demo.started [Take; Take]) = None.
Proof.
  split; [reflexivity|].
  destruct (fresh_pool_tickets Demo.reliable 2 "model" "cpu" true 0%nat
              Demo.started 2%nat eq_refl) as [Hsome Hnone].
  split; [apply (Hsome 1%nat); vm_compute; lia|exact Hnone].
Defined.

Lemma get_compressor_raises_only_exhausted_witness :
  let w0 := Demo.at_start Demo.started 2 in
  let w := with_pool (cleanup Demo.started) w0 in
  let w' := after_sleeps Demo.quiet Demo.punctual 1 w in
  __init__ Demo.reliable 2 "model" "cpu" true 0%nat = (Ok Demo.started, 2%nat) ∧
  lifecycle Demo.reliable Demo.quiet Demo.punctual undisturbed w0 w ∧
  get_compressor Demo.quiet Demo.punctual 1 (1 # 10) w = Some (Raise PoolExhausted, w') ∧
  (1 # 10 <= now w' - now w)%Q.
Proof.
  cbv zeta.
  assert (lifecycle Demo.reliable Demo.quiet Demo.punctual undisturbed
            (Demo.at_start Demo.started 2)
            (with_pool (cleanup Demo.started) (Demo.at_start Demo.started 2)))
    as Hlife
    by (apply (life_cleanup _ _ _ _ _ (Demo.at_start Demo.started 2)), life_here).
  split; [reflexivity|]. split; [exact Hlife|]. split; [reflexivity|].
  apply (get_compressor_raises_only_exhausted Demo.reliable Demo.quiet Demo.punctual
           2 "model" "cpu" true 0%nat Demo.started 2%nat 0%Q 0%nat _ 1%nat (1 # 10)
           PoolExhausted _ eq_refl Hlife eq_refl).
Defined.

Lemma update_model_failed_rebuild_witness :
  let w := Demo.at_start Demo.started 0 in
  in_use (w_pool w) = ∅ ∧
  construct Demo.flaky 2 "model-b" "cpu" true 0%nat
    = ([("model-b", "cpu", true)], false, 2%nat) ∧
  ∃ w1,
    update_model Demo.flaky Demo.quiet Demo.punctual 1 Demo.meddling
                 (Some "model-b") None w
      = Some (Raise ConstructionError, w1) ∧
    pool (w_pool w1) = [("model-b", "cpu", true)] ∧
    model_name (w_pool w1) = "model-b".
Proof.
  cbv zeta. split; [reflexivity|]. split; [reflexivity|].
  destruct (update_model_failed_rebuild Demo.flaky Demo.quiet Demo.punctual
              Demo.meddling (Some "model-b") None (Demo.at_start Demo.started 0) 0%nat
              [("model-b", "cpu", true)] 2%nat)
    as (w1 & Hraises & Hpool & _ & _ & Hmodel & _).
  - intros j Hj. lia.
  - reflexivity.
  - reflexivity.
  - exists w1. split; [apply Hraises; lia|]. split; [exact Hpool|exact Hmodel].
Defined.

Lemma update_model_waits_forever_witness :
  let w := Demo.at_start Demo.busy 1 in
  (∀ j, in_use (w_pool (after_sleeps Demo.quiet Demo.punctual j
                          (with_pool (set_config "model" "cuda" (w_pool w)) w))) ≠ ∅) ∧
  update_model Demo.reliable Demo.quiet Demo.punctual 1000 Demo.alone
               None (Some "cuda") w = None.
Proof.
  cbv zeta.
  assert (∀ j, in_use (w_pool (after_sleeps Demo.quiet Demo.punctual j
                 (with_pool (set_config "model" "cuda" (w_pool (Demo.at_start Demo.busy 1)))
                            (Demo.at_start Demo.busy 1)))) ≠ ∅) as Hbusy.
  { intros j. rewrite quiet_later. simpl. apply non_empty_singleton_L. }
  split; [exact Hbusy|].
  apply (update_model_waits_forever Demo.reliable Demo.quiet Demo.punctual
           Demo.alone None (Some "cuda") (Demo.at_start Demo.busy 1) 1000). exact Hbusy.
Defined.

Lemma compress_prompt_errors_are_500_witness :
  compressor_pool Demo.starting = None ∧
  compress_prompt Demo.quiet Demo.punctual Demo.compress Demo.str_caught
                  0 Demo.request Demo.starting =
    Some (HTTPException 500
            "compress error: Connection pool not initialized, please try again later",
          Demo.starting).
Proof.
  split; [reflexivity|].
  apply (proj1 (compress_prompt_errors_are_500 Demo.quiet Demo.punctual
                  Demo.compress Demo.str_caught 0 Demo.request Demo.starting)).
  reflexivity.
Defined.

Lemma compress_prompt_gives_ticket_back_witness :
  compressor_pool Demo.serving = Some Demo.started ∧
  consistent Demo.started ∧
  (∀ n, 0 <= Demo.punctual n)%Q ∧
  ∃ n resp a',
    (∀ fuel, (n ≤ fuel)%nat →
       compress_prompt Demo.quiet Demo.punctual Demo.compress Demo.str_caught
                       fuel Demo.request Demo.serving = Some (resp, a')) ∧
    compressor_pool a' = Some Demo.started.
Proof.
  split; [reflexivity|]. split; [exact started_consistent|].
  split; [exact punctual_nonneg|].
  destruct (compress_prompt_gives_ticket_back Demo.quiet Demo.punctual
              Demo.compress Demo.str_caught Demo.request Demo.serving Demo.started
              eq_refl started_consistent punctual_nonneg)
    as (n & resp & a' & p' & Hruns & Hpool & _ & Hsame).
  exists n, resp, a'. split; [exact Hruns|].
  rewrite Hpool. f_equal. apply Hsame. reflexivity.
Defined.

Lemma compress_prompt_body_witness :
  let body : gmap string string :=
    <["prompts" := "short"]>
      (<["original_tokens" := "10"]>
         (<["compressed_tokens" := "5"]> (<["rate" := "0.5"]> ∅))) in
  compress_prompt Demo.quiet Demo.punctual Demo.compress Demo.str_caught
                  1 Demo.request Demo.serving = Some (Body body, Demo.serving) ∧
  body !! "prompts" = Some "short" ∧
  dom body = {["prompts"; "original_tokens"; "compressed_tokens"; "rate"]}.
Proof.
  cbv zeta.
  assert (compress_prompt Demo.quiet Demo.punctual Demo.compress Demo.str_caught
            1 Demo.request Demo.serving
          = Some (Body (<["prompts" := "short"]>
                          (<["original_tokens" := "10"]>
                             (<["compressed_tokens" := "5"]> (<["rate" := "0.5"]> ∅)))),
                  Demo.serving)) as Hrun by (vm_compute; reflexivity).
  split; [exact Hrun|].
  destruct (compress_prompt_body Demo.quiet Demo.punctual Demo.compress Demo.str_caught
              1 Demo.request Demo.serving _ _ Hrun)
    as (p & c & i & w & d & e' & _ & _ & _ & _ & _ & _ & _ & _ & Hdom & _).
  split; [reflexivity|exact Hdom].
Defined.

Lemma compress_prompt_after_shutdown_witness :
  (∀ n, 0 <= Demo.punctual n)%Q ∧
  ∃ n e a',
    (∀ fuel, (n ≤ fuel)%nat →
       compress_prompt Demo.quiet Demo.punctual Demo.compress Demo.str_caught
                       fuel Demo.request (shutdown Demo.serving)
       = Some (compress_error Demo.str_caught e, a')) ∧
    outside a' = outside Demo.serving.
Proof.
  split; [exact punctual_nonneg|].
  destruct (compress_prompt_after_shutdown Demo.quiet Demo.punctual
              Demo.compress Demo.str_caught Demo.request Demo.serving punctual_nonneg)
    as (n & e & a' & Hruns & Hout & _).
  exists n, e, a'. split; [exact Hruns|exact Hout].
Defined.

Lemma initialize_compressor_pool_result_witness :
  let a' := mkApp (Some (mkPool 2 remote_model "cuda" true
                           [(remote_model, "cuda", true); (remote_model, "cuda", true)]
                           [0; 1] ∅)) 0%Q 0%nat 2%nat in
  initialize_compressor_pool Demo.reliable Demo.relative Demo.no_file Demo.beside
                             Demo.config Demo.starting = (Ok tt, a') ∧
  ∃ p, compressor_pool a' = Some p ∧ consistent p ∧ model_name p = remote_model.
Proof.
  cbv zeta.
  destruct (initialize_compressor_pool_result Demo.reliable Demo.relative Demo.no_file
              Demo.beside Demo.config Demo.starting _ _ eq_refl)
    as [[Hr _]|(_ & p & Hp & Hc & _)]; [discriminate Hr|].
  split; [reflexivity|].
  exists p. split; [exact Hp|]. split; [exact Hc|].
  injection Hp as <-. reflexivity.
Defined.

Lemma health_check_counts_witness :
  let w0 := Demo.at_start Demo.started 2 in
  let w := Demo.at_start
             (mkPool 2 "model" "cpu" true [Demo.built; Demo.built] [0] {[1]}) 2 in
  0 ≤ 2 ∧
  __init__ Demo.reliable 2 "model" "cpu" true 0%nat = (Ok Demo.started, 2%nat) ∧
  reachable Demo.reliable Demo.quiet Demo.punctual undisturbed w0 w ∧
  (∃ pool_status x y,
     health_check (app_of w) = ("healthy", Some pool_status, app_of w) ∧
     pool_status !! "pool_size" = Some (VInt 2) ∧
     pool_status !! "available" = Some (VInt x) ∧
     pool_status !! "in_use" = Some (VInt y) ∧
     0 ≤ x ∧ 0 ≤ y ∧ x + y = 2) ∧
  (∃ pool_status,
     health_check (shutdown (app_of w))
       = ("healthy", Some pool_status, shutdown (app_of w)) ∧
     pool_status !! "pool_size" = Some (VInt 2) ∧
     pool_status !! "available" = Some (VInt 0) ∧
     pool_status !! "in_use" = Some (VInt 0)).
Proof.
  cbv zeta.
  assert (reachable Demo.reliable Demo.quiet Demo.punctual undisturbed
            (Demo.at_start Demo.started 2)
            (Demo.at_start
               (mkPool 2 "model" "cpu" true [Demo.built; Demo.built] [0] {[1]}) 2))
    as Hreach.
  { apply (reach_call _ _ _ _ _ (Demo.at_start Demo.started 2) 1%nat (CallGet 30)
             (Ok (RetCompressor Demo.built 1)));
      [|exact I|reflexivity|discriminate].
    apply reach_here. }
  split; [lia|]. split; [reflexivity|]. split; [exact Hreach|].
  apply (health_check_counts Demo.reliable Demo.quiet Demo.punctual
           2 "model" "cpu" true 0%nat Demo.started 2%nat 0%Q 0%nat);
    [lia|reflexivity|exact Hreach].
Defined.
